(** * Dialogue summarisation with PEFT (LoRA) and FLAN-T5: the evaluation pipeline

    A shallow embedding of the code cells of [notebooks/peft_fine_tune.ipynb]
    that build prompts, run the three model variants over a batch of dialogues,
    score the generated summaries and compare the scores.

    Python values are modelled as follows.
    - [str] is [string]; the templates are ASCII, and a dialogue is any string.
    - a Python list is a [list]; slicing [l[0:n]] is [firstn n l].
    - a [dict] keeps insertion order and is an association list whose keys are
      pairwise distinct ([dict_wf]).
    - [np.float64] is the kernel's binary64 [float]: subtraction and
      multiplication round exactly as NumPy's do.
    - an exception is a value of [exn]; code that may raise returns [result].
    - the models, the tokenizer and the ROUGE metric are library objects: they
      are parameters of the sections that use them. *)

From Stdlib Require Import List String Ascii Bool Arith ZArith Lia.
From Stdlib Require Import Floats.
Import ListNotations.

Local Open Scope string_scope.
Local Open Scope list_scope.

(** ** Exceptions and results *)

Inductive exn : Type :=
| NameError (name : string)
| IndexError
| TypeError
| ValueError
| LengthMismatch.

Inductive result (A : Type) : Type :=
| Ok (a : A)
| Err (e : exn).

Arguments Ok {A} a.
Arguments Err {A} e.

(** ** Prompts *)

Definition LF : string := String "010"%char EmptyString.

Module TokenizeFunction.

(** [tokenize_function]: the two literals and the list comprehension. *)
Definition start_prompt : string :=
  "Summarize the following conversation." ++ LF ++ LF.

Definition end_prompt : string := LF ++ LF ++ "Summary: ".

Definition build_prompt (dialogue : string) : string :=
  start_prompt ++ dialogue ++ end_prompt.

Definition prompt (example_dialogue : list string) : list string :=
  map build_prompt example_dialogue.

End TokenizeFunction.

Module Qualitative.

(** The f-string of the qualitative evaluation cell: the literal opens with
    a line break right after the three quotes. *)
Definition prompt (dialogue : string) : string :=
  LF ++ "Summarize the following conversation." ++ LF
     ++ LF
     ++ dialogue ++ LF
     ++ LF
     ++ "Summary: ".

End Qualitative.

Module Quantitative.

(** The f-string in the body of the quantitative evaluation loop. *)
Definition prompt (dialogue : string) : string :=
  LF ++ "Summarize the following conversation." ++ LF
     ++ LF
     ++ dialogue ++ LF
     ++ LF
     ++ "Summary: ".

End Quantitative.

(** The template the specification gives for every prompt. *)
Definition spec_template (d : string) : string :=
  "Summarize the following conversation." ++ LF ++ LF ++ d ++ LF ++ LF ++ "Summary: ".

(** ** The notebook's global namespace

    The cells share one namespace.  [pyval] keeps what subscripting a list
    can tell apart about the object a name is bound to: an [int], or an
    object of another type, which is no index (slices are left out). *)

Inductive pyval : Type :=
| PyInt (z : Z)
| PyOther.

Definition namespace : Type := string -> option pyval.

(** Reading a global name that no cell has bound raises [NameError]. *)
Definition load_name (ns : namespace) (name : string) : result pyval :=
  match ns name with
  | Some v => Ok v
  | None => Err (NameError name)
  end.

(** The names bound before the body of the quantitative loop reads
    [human_baseline_summaries[idx]], when the cells run top to bottom in a
    new kernel: the imports, and every assignment target, [def] and loop
    variable of the cells above it and of the loop cell itself.  (The
    interpreter's own names, the builtins and IPython's, come on top; none of
    them is [idx].) *)
Definition names_bound_top_to_bottom : list string :=
  [ "load_dataset"; "AutoModelForSeq2SeqLM"; "AutoTokenizer"; "GenerationConfig";
    "TrainingArguments"; "Trainer"; "torch"; "time"; "evaluate"; "pd"; "np";
    "huggingface_dataset_name"; "dataset";
    "model_name"; "original_model"; "tokenizer";
    "tokenize_function"; "tokenized_datasets";
    "LoraConfig"; "get_peft_model"; "TaskType"; "lora_config";
    "peft_model"; "total_params"; "trainable_params";
    "peft_training_args"; "peft_trainer";
    "PeftModel"; "PeftConfig"; "peft_model_base"; "instruct_model";
    "index"; "dialogue"; "human_baseline_summary"; "prompt"; "input_ids";
    "original_model_outputs"; "original_model_text_output";
    "instruct_model_outputs"; "instruct_model_text_output";
    "peft_model_outputs"; "peft_model_text_output"; "dash_line";
    "tqdm"; "dialogues"; "human_baseline_summaries";
    "original_model_summaries"; "instruct_model_summaries"; "peft_model_summaries" ].

(** What such a name is bound to, as far as [pyval] tells: three of them
    are [int]s ([index = 200], and the two parameter counts as the cell
    above the qualitative evaluation printed them). *)
Definition bound_value (name : string) : pyval :=
  if String.eqb name "index" then PyInt 200
  else if String.eqb name "total_params" then PyInt 251116800
  else if String.eqb name "trainable_params" then PyInt 0
  else PyOther.

Definition fresh_namespace : namespace :=
  fun name =>
    if existsb (String.eqb name) names_bound_top_to_bottom
    then Some (bound_value name) else None.

(** A namespace in which an earlier session left [idx] bound to [v]. *)
Definition with_idx (v : pyval) : namespace :=
  fun name => if String.eqb name "idx" then Some v else fresh_namespace name.

(** [l[i]] on a Python list: an [int] index counts from the end when it is
    negative, and is an [IndexError] out of range; another object is a
    [TypeError]. *)
Definition getitem {A : Type} (l : list A) (i : pyval) : result A :=
  match i with
  | PyInt z =>
      let n := Z.of_nat (List.length l) in
      let k := if (z <? 0)%Z then (z + n)%Z else z in
      if ((0 <=? k) && (k <? n))%Z%bool then
        match nth_error l (Z.to_nat k) with
        | Some x => Ok x
        | None => Err IndexError
        end
      else Err IndexError
  | _ => Err TypeError
  end.

(** ** The dataset *)

Record DialogueRecord : Type := {
  id : string;
  dialogue : string;
  summary : string;
  topic : string
}.

(** [dataset['test'][0:10]['dialogue']] and [...['summary']]. *)
Definition dialogues_of (test : list DialogueRecord) : list string :=
  map dialogue (firstn 10 test).

Definition human_baseline_summaries_of (test : list DialogueRecord) : list string :=
  map summary (firstn 10 test).

(** ** The quantitative evaluation loop *)

Inductive model_variant : Type := original_model | instruct_model | peft_model.

Section Generation.

(** The tokenizer and the three models are library objects. *)
Variable token_ids : Type.
Variable tokenizer : string -> token_ids.
Variable generate : model_variant -> token_ids -> result token_ids.
Variable decode : token_ids -> string.

(** What the loop mutates: the three lists it appends to; [calls] logs each
    call of a model's [generate], the latest first. *)
Record loop_state : Type := {
  original_model_summaries : list string;
  instruct_model_summaries : list string;
  peft_model_summaries : list string;
  calls : list (model_variant * token_ids)
}.

Definition initial_state : loop_state :=
  {| original_model_summaries := [];
     instruct_model_summaries := [];
     peft_model_summaries := [];
     calls := [] |}.

(** A statement either finishes or raises, and leaves a state either way. *)
Definition M (A : Type) : Type := loop_state -> result A * loop_state.

Definition ret {A} (a : A) : M A := fun st => (Ok a, st).

Definition bind {A B} (m : M A) (k : A -> M B) : M B :=
  fun st =>
    match m st with
    | (Ok a, st') => k a st'
    | (Err e, st') => (Err e, st')
    end.

Definition lift {A} (r : result A) : M A := fun st => (r, st).

Notation "x <- m ;; k" := (bind m (fun x => k))
  (at level 61, m at next level, right associativity).

(** [model.generate(input_ids=..., generation_config=...)] followed by
    [tokenizer.decode(outputs[0], skip_special_tokens=True)]. *)
Definition generate_text (v : model_variant) (input_ids : token_ids) : M string :=
  fun st =>
    let st' := {| original_model_summaries := original_model_summaries st;
                  instruct_model_summaries := instruct_model_summaries st;
                  peft_model_summaries := peft_model_summaries st;
                  calls := (v, input_ids) :: calls st |} in
    match generate v input_ids with
    | Ok outputs => (Ok (decode outputs), st')
    | Err e => (Err e, st')
    end.

Definition append_summaries (o i p : string) : M unit :=
  fun st =>
    (Ok tt,
     {| original_model_summaries := original_model_summaries st ++ [o];
        instruct_model_summaries := instruct_model_summaries st ++ [i];
        peft_model_summaries := peft_model_summaries st ++ [p];
        calls := calls st |}).

Definition loop_body (ns : namespace) (human_baseline_summaries : list string)
           (dialogue : string) : M unit :=
  let prompt := Quantitative.prompt dialogue in
  let input_ids := tokenizer prompt in
  idx <- lift (load_name ns "idx") ;;
  human_baseline_text_output <- lift (getitem human_baseline_summaries idx) ;;
  original_model_text_output <- generate_text original_model input_ids ;;
  instruct_model_text_output <- generate_text instruct_model input_ids ;;
  peft_model_text_output <- generate_text peft_model input_ids ;;
  append_summaries original_model_text_output
                   instruct_model_text_output
                   peft_model_text_output.

(** [for dialogue in tqdm(dialogues): ...] *)
Fixpoint for_each (ns : namespace) (human_baseline_summaries : list string)
         (dialogues : list string) : M unit :=
  match dialogues with
  | [] => ret tt
  | dialogue :: rest =>
      _ <- loop_body ns human_baseline_summaries dialogue ;;
      for_each ns human_baseline_summaries rest
  end.

Definition run_loop (ns : namespace) (human_baseline_summaries dialogues : list string)
  : result unit * loop_state :=
  for_each ns human_baseline_summaries dialogues initial_state.

(** The loop with the statement [human_baseline_text_output =
    human_baseline_summaries[idx]] taken out of its body: what the cell
    computes once that read has gone through. *)
Definition body_without_read (dialogue : string) : M unit :=
  let prompt := Quantitative.prompt dialogue in
  let input_ids := tokenizer prompt in
  original_model_text_output <- generate_text original_model input_ids ;;
  instruct_model_text_output <- generate_text instruct_model input_ids ;;
  peft_model_text_output <- generate_text peft_model input_ids ;;
  append_summaries original_model_text_output
                   instruct_model_text_output
                   peft_model_text_output.

Fixpoint for_each_without_read (dialogues : list string) : M unit :=
  match dialogues with
  | [] => ret tt
  | dialogue :: rest =>
      _ <- body_without_read dialogue ;;
      for_each_without_read rest
  end.

Definition summaries_of (v : model_variant) (st : loop_state) : list string :=
  match v with
  | original_model => original_model_summaries st
  | instruct_model => instruct_model_summaries st
  | peft_model => peft_model_summaries st
  end.

(** [list(zip(human_baseline_summaries, original_model_summaries,
    instruct_model_summaries, peft_model_summaries))]: rows stop with the
    shortest list. *)
Fixpoint zip4 (h o i p : list string) : list (string * string * string * string) :=
  match h, o, i, p with
  | hh :: h', oo :: o', ii :: i', pp :: p' => (hh, oo, ii, pp) :: zip4 h' o' i' p'
  | _, _, _, _ => []
  end.

Definition zipped_summaries (human_baseline_summaries : list string) (st : loop_state) :=
  zip4 human_baseline_summaries
       (original_model_summaries st)
       (instruct_model_summaries st)
       (peft_model_summaries st).

(** The summary a variant gives for a dialogue, when its generation call
    returns. *)
Definition summary_from (v : model_variant) (dialogue summary_text : string) : Prop :=
  exists outputs,
    generate v (tokenizer (Quantitative.prompt dialogue)) = Ok outputs /\
    summary_text = decode outputs.

End Generation.

Arguments original_model_summaries {token_ids} _.
Arguments instruct_model_summaries {token_ids} _.
Arguments peft_model_summaries {token_ids} _.
Arguments calls {token_ids} _.
Arguments initial_state {token_ids}.
Arguments summaries_of {token_ids} _ _.
Arguments zipped_summaries {token_ids} _ _.
Arguments generate_text {token_ids}.
Arguments append_summaries {token_ids}.
Arguments loop_body {token_ids}.
Arguments for_each {token_ids}.
Arguments run_loop {token_ids}.
Arguments body_without_read {token_ids}.
Arguments for_each_without_read {token_ids}.
Arguments summary_from {token_ids}.
Arguments bind {token_ids A B}.
Arguments ret {token_ids A}.
Arguments lift {token_ids A}.

(** ** The schedule of model calls

    The loop calls the three variants on each dialogue, in this order and
    with the same [input_ids]. *)

Section Schedule.

Variable token_ids : Type.
Variable tokenizer : string -> token_ids.

Definition calls_for (dialogue : string) : list (model_variant * token_ids) :=
  let input_ids := tokenizer (Quantitative.prompt dialogue) in
  [ (original_model, input_ids); (instruct_model, input_ids); (peft_model, input_ids) ].

Definition call_schedule (dialogues : list string) : list (model_variant * token_ids) :=
  flat_map calls_for dialogues.

End Schedule.

Arguments calls_for {token_ids}.
Arguments call_schedule {token_ids}.

(** ** The qualitative evaluation cell *)

Section QualitativeCell.

Variable token_ids : Type.
Variable tokenizer : string -> token_ids.
Variable generate : model_variant -> token_ids -> result token_ids.
Variable decode : token_ids -> string.

Notation "x <- m ;; k" := (bind m (fun x => k))
  (at level 61, m at next level, right associativity).

(** [index = 200] *)
Definition index : pyval := PyInt 200.

(** The cell up to its [print]s: [dataset['test'][index]] is read once for
    the dialogue and once for the summary, then the three variants generate
    from one prompt.  It returns the human summary and the three outputs. *)
Definition qualitative_cell (test : list DialogueRecord)
  : M token_ids (string * string * string * string) :=
  dialogue_record <- lift (getitem test index) ;;
  summary_record <- lift (getitem test index) ;;
  let human_baseline_summary := summary summary_record in
  let prompt := Qualitative.prompt (dialogue dialogue_record) in
  let input_ids := tokenizer prompt in
  original_model_text_output <- generate_text generate decode original_model input_ids ;;
  instruct_model_text_output <- generate_text generate decode instruct_model input_ids ;;
  peft_model_text_output <- generate_text generate decode peft_model input_ids ;;
  ret (human_baseline_summary,
       original_model_text_output,
       instruct_model_text_output,
       peft_model_text_output).

End QualitativeCell.

Arguments qualitative_cell {token_ids}.

(** ** The training data: tokenization and subsampling *)

(** [DatasetDict]: the three splits. *)
Record DatasetDict (A : Type) : Type := {
  train : list A;
  validation : list A;
  test : list A
}.

Arguments train {A} _.
Arguments validation {A} _.
Arguments test {A} _.

(** [Dataset.map(function, batched=True)] hands the function the rows in
    consecutive batches of [batch_size] (1000 when it is not given) and puts
    the returned batches one after the other. *)
Fixpoint batches_aux {A : Type} (fuel batch_size : nat) (rows : list A) : list (list A) :=
  match fuel with
  | O => []
  | S fuel' =>
      match rows with
      | [] => []
      | _ :: _ => firstn batch_size rows :: batches_aux fuel' batch_size (skipn batch_size rows)
      end
  end.

Definition batches {A : Type} (batch_size : nat) (rows : list A) : list (list A) :=
  batches_aux (List.length rows) batch_size rows.

Definition map_batched {A B : Type} (batch_size : nat) (function : list A -> list B)
           (rows : list A) : list B :=
  List.concat (map function (batches batch_size rows)).

(** [Dataset.filter(function, with_indices=True)] keeps the rows on which the
    function, given the row and its index, answers [True]. *)
Fixpoint filter_with_indices {A : Type} (function : A -> nat -> bool)
         (index : nat) (rows : list A) : list A :=
  match rows with
  | [] => []
  | example :: rest =>
      if function example index
      then example :: filter_with_indices function (S index) rest
      else filter_with_indices function (S index) rest
  end.

(** [lambda example, index: index % 100 == 0] *)
Definition every_hundredth {A : Type} (example : A) (index : nat) : bool :=
  Nat.eqb (Nat.modulo index 100) 0.

Definition filter_split {A : Type} (rows : list A) : list A :=
  filter_with_indices every_hundredth 0 rows.

Section Tokenization.

Variable token_ids : Type.

(** [tokenizer(text, padding="max_length", truncation=True,
    return_tensors="pt").input_ids], row by row: with this padding every
    text is encoded on its own. *)
Variable tokenizer : string -> token_ids.

(** A row once [id], [topic], [dialogue] and [summary] are removed. *)
Record TokenizedExample : Type := {
  input_ids : token_ids;
  labels : token_ids
}.

(** [tokenize_function] on a batch: the two new columns, row by row. *)
Definition tokenize_function (example : list DialogueRecord) : list TokenizedExample :=
  let prompt := TokenizeFunction.prompt (map dialogue example) in
  let input_ids_column := map tokenizer prompt in
  let labels_column := map tokenizer (map summary example) in
  map (fun '(i, l) => {| input_ids := i; labels := l |})
      (combine input_ids_column labels_column).

(** The tokenized row of one record: its prompt and its summary, encoded. *)
Definition tokenize_row (record : DialogueRecord) : TokenizedExample :=
  {| input_ids := tokenizer (TokenizeFunction.build_prompt (dialogue record));
     labels := tokenizer (summary record) |}.

(** [dataset.map(tokenize_function, batched=True)], [remove_columns] and the
    [filter], split by split. *)
Definition tokenized_split (rows : list DialogueRecord) : list TokenizedExample :=
  filter_split (map_batched 1000 tokenize_function rows).

Definition tokenized_datasets (dataset : DatasetDict DialogueRecord)
  : DatasetDict TokenizedExample :=
  {| train := tokenized_split (train dataset);
     validation := tokenized_split (validation dataset);
     test := tokenized_split (test dataset) |}.

End Tokenization.

Arguments input_ids {token_ids} _.
Arguments labels {token_ids} _.
Arguments tokenize_function {token_ids}.
Arguments tokenize_row {token_ids}.
Arguments tokenized_split {token_ids}.
Arguments tokenized_datasets {token_ids}.

(** ** Counting parameters *)

(** What the counting cells read of a tensor of [model.parameters()]. *)
Record ParameterTensor : Type := {
  numel : N;
  requires_grad : bool
}.

(** [sum(p.numel() for p in model.parameters())] *)
Definition total_params (parameters : list ParameterTensor) : N :=
  fold_left N.add (map numel parameters) 0%N.

(** [sum(p.numel() for p in model.parameters() if p.requires_grad)] *)
Definition trainable_params (parameters : list ParameterTensor) : N :=
  fold_left N.add (map numel (List.filter requires_grad parameters)) 0%N.

(** ** Score sets *)

(** The [dict] that [rouge.compute] returns: metric name to [np.float64],
    in insertion order. *)
Definition ScoreSet : Type := list (string * float).

Definition keys (d : ScoreSet) : list string := map fst d.
Definition values (d : ScoreSet) : list float := map snd d.

(** [d[k]]. *)
Fixpoint get (d : ScoreSet) (k : string) : option float :=
  match d with
  | [] => None
  | (k', v) :: rest => if String.eqb k k' then Some v else get rest k
  end.

(** A [dict] holds a key once. *)
Definition dict_wf (d : ScoreSet) : Prop := NoDup (keys d).

(** Two score sets are over the same set of metric names. *)
Definition same_key_set (a b : ScoreSet) : Prop :=
  forall k, In k (keys a) <-> In k (keys b).

(** A score is a float in [0, 1]; the comparisons are false on NaN. *)
Definition valid_score (x : float) : bool := ((0 <=? x) && (x <=? 1))%float.

Definition valid_scores (d : ScoreSet) : bool := forallb valid_score (values d).

(** ** The metric scorer *)

Section Scorer.

(** The ROUGE scores the metric library computes for aligned lists of
    predictions and references, with [use_aggregator=True] and
    [use_stemmer=True]. *)
Variable rouge : list string -> list string -> ScoreSet.

(** Modelled from the spec: [rouge.compute] is the [evaluate] library's
    metric object, which is not part of the notebook.  Its stated
    precondition is [len(predictions) == len(references)], and it fails
    with [LengthMismatch] otherwise. *)
Definition rouge_compute (predictions references : list string) : result ScoreSet :=
  if Nat.eqb (List.length predictions) (List.length references)
  then Ok (rouge predictions references)
  else Err LengthMismatch.

(** Each of the notebook's calls:
    [rouge.compute(predictions=p, references=human_baseline_summaries[0:len(p)], ...)]. *)
Definition score (predictions human_baseline_summaries : list string) : result ScoreSet :=
  rouge_compute predictions
                (firstn (List.length predictions) human_baseline_summaries).

End Scorer.

(** ** Scoring the stored results

    [results = pd.read_csv(...)]: one row per dialogue, every cell a
    string. *)

Module ResultsCsv.



End ResultsCsv.

(** ** The comparator *)

Local Open Scope float_scope.

(** [x - y] on two one-dimensional [float64] arrays: NumPy subtracts
    element by element, stretches an array of length one over the other
    operand, and raises [ValueError] for any other pair of lengths. *)
Definition np_subtract (xs ys : list float) : result (list float) :=
  if Nat.eqb (List.length xs) (List.length ys) then
    Ok (map (fun '(x, y) => x - y) (combine xs ys))
  else
    match xs, ys with
    | [x], _ => Ok (map (fun y => x - y) ys)
    | _, [y] => Ok (map (fun x => x - y) xs)
    | _, _ => Err ValueError
    end.

(** [improvement = np.array(list(a.values())) - np.array(list(b.values()))] *)
Definition improvement (a b : ScoreSet) : result (list float) :=
  np_subtract (values a) (values b).

(** [for key, value in zip(a.keys(), improvement)]: the pairs the cell
    prints, each value as [value*100]. *)
Definition compare (a b : ScoreSet) : result (list (string * float)) :=
  match improvement a b with
  | Ok imp => Ok (map (fun '(key, value) => (key, value * 100)) (combine (keys a) imp))
  | Err e => Err e
  end.

(** ** The scores the notebook recorded

    Python prints a float as the shortest decimal that reads back as the same
    binary64 value, so each literal below denotes the float the run
    produced. *)

#[local] Set Warnings "-inexact-float".

Module TenRows.

Definition original_model_results : ScoreSet :=
  [ ("rouge1", 0.2566893144878768); ("rouge2", 0.1294486893343586);
    ("rougeL", 0.22765512517993816); ("rougeLsum", 0.23187734563950757) ].

Definition instruct_model_results : ScoreSet :=
  [ ("rouge1", 0.4015906463624618); ("rouge2", 0.17568542724181807);
    ("rougeL", 0.2874569966059625); ("rougeLsum", 0.2886327613084294) ].

Definition peft_model_results : ScoreSet :=
  [ ("rouge1", 0.3725351062275605); ("rouge2", 0.12138811933618107);
    ("rougeL", 0.27620639623170606); ("rougeLsum", 0.2758134870822362) ].

End TenRows.

Module FullTestSet.

Definition original_model_results : ScoreSet :=
  [ ("rouge1", 0.2334158581572823); ("rouge2", 0.07603964187010573);
    ("rougeL", 0.20145520923859048); ("rougeLsum", 0.20145899339006135) ].

Definition instruct_model_results : ScoreSet :=
  [ ("rouge1", 0.42161291557556113); ("rouge2", 0.18035380596301792);
    ("rougeL", 0.3384439349963909); ("rougeLsum", 0.33835653595561666) ].

Definition peft_model_results : ScoreSet :=
  [ ("rouge1", 0.40810631575616746); ("rouge2", 0.1633255794568712);
    ("rougeL", 0.32507074586565354); ("rougeLsum", 0.3248950182867091) ].

End FullTestSet.


(** What [compare] returns on two score sets of one length: the differences
    taken position by position, under the keys of the first. *)
Definition deltas (a b : ScoreSet) : list (string * float) :=
  map (fun '((key, x), (_, y)) => (key, (x - y) * 100)) (combine a b).

(** Two score sets over one set of metric names, inserted in different
    orders. *)
Definition reordered_a : ScoreSet := [ ("rouge1", 0.5); ("rouge2", 0.25) ].
Definition reordered_b : ScoreSet := [ ("rouge2", 0.125); ("rouge1", 1) ].

(** Two score sets over different metric names. *)
Definition only_rouge1 : ScoreSet := [ ("rouge1", 0.5) ].
Definition only_rouge2 : ScoreSet := [ ("rouge2", 0.25) ].

(** A stand-in for the three models, to run the loop on: every variant
    answers with its own name followed by the prompt it was given. *)
Definition echo_generate (v : model_variant) (input_ids : string) : result string :=
  Ok (match v with
      | original_model => "original: "
      | instruct_model => "instruct: "
      | peft_model => "peft: "
      end ++ input_ids)%string.

Definition two_records : list DialogueRecord :=
  [ {| id := "test_0"; dialogue := "#Person1#: Hi."; summary := "A greeting."; topic := "hello" |};
    {| id := "test_1"; dialogue := "#Person2#: Bye."; summary := "A farewell."; topic := "bye" |} ].

(** ** Binary64 representations

    [Prim2SF] maps a float to its sign, mantissa and exponent; the standard
    library specifies the primitive operations on that form. *)

Local Open Scope Z_scope.

Abbreviation fexp := (SpecFloat.fexp prec emax).
Abbreviation round_aux := (binary_round_aux prec emax).

(** [100.0] *)
Definition SF100 : spec_float := S754_finite false 7036874417766400 (-46).

(** The forms a rounding returns for a value that is not zero: its sign is
    [s], and it is finite at an exponent no lower than [emin], or infinite. *)
Inductive signed_nonzero (s : bool) : spec_float -> Prop :=
| snz_finite m e : emin <= e -> signed_nonzero s (S754_finite s m e)
| snz_infinity : signed_nonzero s (S754_infinity s).

(** The representations of the floats that are zero, or finite and
    positive; every valid score has one of them. *)
Inductive score_repr : spec_float -> Prop :=
| sr_zero s : score_repr (S754_zero s)
| sr_finite m e : bounded prec emax m e = true -> score_repr (S754_finite false m e).

(** [r] is [r0] shifted right by [p] bits: its mantissa is the quotient, and
    its two flags are clear exactly when the bits shifted out and the flags
    of [r0] were. *)
Definition shifted (p : Z) (r0 r : shr_record) : Prop :=
  0 <= shr_m r /\
  exists rho,
    shr_m r0 = shr_m r * 2 ^ p + rho /\ 0 <= rho < 2 ^ p /\
    (shr_r r || shr_s r = false <-> rho = 0 /\ shr_r r0 || shr_s r0 = false).

(** The value [m * 2 ^ e], scaled to an integer: exponents here are never
    below [emin - 46]. *)
Definition scaled (m e : Z) : Z := m * 2 ^ (e + 1120).

(** [F] is a zero, or a canonical finite float of magnitude at most
    [b * 2 ^ eb]. *)
Definition under (b : positive) (eb : Z) (F : spec_float) : Prop :=
  match F with
  | S754_zero _ => True
  | S754_finite _ m e =>
      bounded prec emax m e = true /\ scaled (Z.pos m) e <= scaled (Z.pos b) eb
  | _ => False
  end.

(** * Properties of the prompt builders *)

Local Close Scope Z_scope.
Local Close Scope float_scope.
Local Open Scope string_scope.

Lemma length_append (s t : string) :
  String.length (s ++ t) = String.length s + String.length t.
Proof. induction s as [|c s IH]; simpl; [reflexivity | now rewrite IH]. Qed.

Lemma substring_prefix (d b : string) :
  substring 0 (String.length d) (d ++ b) = d.
Proof. induction d as [|c d IH]; simpl; [now destruct b | now rewrite IH]. Qed.

Lemma substring_append_middle (a d b : string) :
  substring (String.length a) (String.length d) (a ++ d ++ b) = d.
Proof. induction a as [|c a IH]; simpl; [apply substring_prefix | exact IH]. Qed.

Lemma build_prompt_is_template (d : string) :
  TokenizeFunction.build_prompt d = spec_template d.
Proof. reflexivity. Qed.

Lemma evaluation_prompts_agree (d : string) :
  Qualitative.prompt d = Quantitative.prompt d.
Proof. reflexivity. Qed.

Lemma evaluation_prompt_is_LF_template (d : string) :
  Quantitative.prompt d = LF ++ spec_template d.
Proof. reflexivity. Qed.

(** C1 (the code departs from the claim).  [tokenize_function] builds exactly
    the template of the specification, and the two evaluation cells build
    one and the same prompt; but that prompt is the template with a line
    break in front of it, one character longer than, and different from,
    the training-time prompt for the same dialogue. *)
Theorem evaluation_prompt_has_leading_newline (d : string) :
  TokenizeFunction.build_prompt d = spec_template d /\
  Qualitative.prompt d = Quantitative.prompt d /\
  Quantitative.prompt d = LF ++ TokenizeFunction.build_prompt d /\
  String.length (Quantitative.prompt d) =
    S (String.length (TokenizeFunction.build_prompt d)) /\
  Quantitative.prompt d <> TokenizeFunction.build_prompt d /\
  Quantitative.prompt d <> spec_template d.
Proof.
  repeat split; try reflexivity.
  - intros H. cbv in H. discriminate H.
  - intros H. cbv in H. discriminate H.
Qed.

(** C9.  [build_prompt] is a total function of the dialogue; its result
    holds the dialogue as a contiguous substring, right after the opening
    instruction, and is never shorter than the dialogue (it is exactly 50
    characters longer). *)
Theorem build_prompt_contains_dialogue (d : string) :
  (exists before after, TokenizeFunction.build_prompt d = before ++ d ++ after) /\
  substring (String.length TokenizeFunction.start_prompt) (String.length d)
            (TokenizeFunction.build_prompt d) = d /\
  String.length (TokenizeFunction.build_prompt d) = 39 + String.length d + 11 /\
  String.length d <= String.length (TokenizeFunction.build_prompt d).
Proof.
  assert (L : String.length (TokenizeFunction.build_prompt d) = 39 + String.length d + 11).
  { unfold TokenizeFunction.build_prompt. rewrite !length_append. reflexivity. }
  split; [|split; [|split]].
  - exists TokenizeFunction.start_prompt, TokenizeFunction.end_prompt. reflexivity.
  - apply substring_append_middle.
  - exact L.
  - rewrite L. lia.
Qed.

(** The prompts of a batch, one per dialogue and in the order of the dialogues. *)
Lemma tokenize_function_prompts (ds : list string) (i : nat) :
  nth_error (TokenizeFunction.prompt ds) i =
  option_map TokenizeFunction.build_prompt (nth_error ds i).
Proof. apply nth_error_map. Qed.

(** * Properties of the quantitative evaluation loop *)

Local Open Scope list_scope.

Lemma Forall2_map_left {A B C} (P : B -> C -> Prop) (f : A -> B) (l : list A) (l' : list C) :
  Forall2 P (map f l) l' -> Forall2 (fun x y => P (f x) y) l l'.
Proof.
  revert l'. induction l as [|x l IH]; intros l' H; inversion H; subst; constructor; auto.
Qed.

Lemma nth_error_zip4 (h o i p : list string) (k : nat) :
  nth_error (zip4 h o i p) k =
  match nth_error h k, nth_error o k, nth_error i k, nth_error p k with
  | Some hh, Some oo, Some ii, Some pp => Some (hh, oo, ii, pp)
  | _, _, _, _ => None
  end.
Proof.
  revert o i p k. induction h as [|hh h IH]; intros o i p k.
  - destruct k; reflexivity.
  - destruct o as [|oo o]; [destruct k; simpl; [|destruct (nth_error h k)]; reflexivity|].
    destruct i as [|ii i].
    { destruct k; simpl; [reflexivity|].
      destruct (nth_error h k), (nth_error o k); reflexivity. }
    destruct p as [|pp p].
    { destruct k; simpl; [reflexivity|].
      destruct (nth_error h k), (nth_error o k), (nth_error i k); reflexivity. }
    destruct k; simpl; [reflexivity | apply IH].
Qed.

Section LoopProperties.

Variable token_ids : Type.
Variable tokenizer : string -> token_ids.
Variable generate : model_variant -> token_ids -> result token_ids.
Variable decode : token_ids -> string.

(** The read of [human_baseline_summaries[idx]] either raises, leaving the
    state as it found it, or lets the rest of the body run; what it read
    goes nowhere. *)
Lemma loop_body_read ns human d (st : loop_state token_ids) :
  loop_body tokenizer generate decode ns human d st =
  match load_name ns "idx" with
  | Err e => (Err e, st)
  | Ok v =>
      match getitem human v with
      | Err e => (Err e, st)
      | Ok _ => body_without_read tokenizer generate decode d st
      end
  end.
Proof.
  unfold loop_body, bind, lift.
  destruct (load_name ns "idx") as [v|e]; [|reflexivity].
  destruct (getitem human v); reflexivity.
Qed.

Lemma for_each_read ns human ds : forall st : loop_state token_ids,
  for_each tokenizer generate decode ns human ds st =
  match ds with
  | [] => (Ok tt, st)
  | _ :: _ =>
      match load_name ns "idx" with
      | Err e => (Err e, st)
      | Ok v =>
          match getitem human v with
          | Err e => (Err e, st)
          | Ok _ => for_each_without_read tokenizer generate decode ds st
          end
      end
  end.
Proof.
  induction ds as [|d rest IH]; intros st; [reflexivity|].
  cbn [for_each for_each_without_read]. unfold bind.
  rewrite loop_body_read.
  destruct (load_name ns "idx") as [v|e]; [|reflexivity].
  destruct (getitem human v) as [h|e]; [|reflexivity].
  destruct (body_without_read tokenizer generate decode d st) as [[[]|e] st'];
    [|reflexivity].
  rewrite IH. destruct rest; reflexivity.
Qed.

(** One pass of the body appends, for each variant, the summary that variant
    generates from this dialogue, or raises and appends nothing. *)
Lemma body_without_read_appends d (st : loop_state token_ids) :
  (fst (body_without_read tokenizer generate decode d st) = Ok tt /\
   forall v, exists s,
     summaries_of v (snd (body_without_read tokenizer generate decode d st)) =
       summaries_of v st ++ [s] /\
     summary_from tokenizer generate decode v d s) \/
  ((exists e, fst (body_without_read tokenizer generate decode d st) = Err e) /\
   forall v,
     summaries_of v (snd (body_without_read tokenizer generate decode d st)) =
       summaries_of v st).
Proof.
  unfold body_without_read, bind, generate_text, append_summaries, summary_from.
  destruct (generate original_model _) as [o|e] eqn:Eo;
    [|right; split; [eexists; reflexivity | intros []; reflexivity]].
  destruct (generate instruct_model _) as [i|e] eqn:Ei;
    [|right; split; [eexists; reflexivity | intros []; reflexivity]].
  destruct (generate peft_model _) as [p|e] eqn:Ep;
    [|right; split; [eexists; reflexivity | intros []; reflexivity]].
  left. split; [reflexivity|].
  intros []; cbn; eexists; (split; [reflexivity|]); eexists; split;
    solve [eassumption | reflexivity].
Qed.

Lemma for_each_without_read_aligned ds : forall st : loop_state token_ids,
  exists n,
    n <= List.length ds /\
    (fst (for_each_without_read tokenizer generate decode ds st) = Ok tt ->
     n = List.length ds) /\
    forall v, exists new,
      summaries_of v (snd (for_each_without_read tokenizer generate decode ds st)) =
        summaries_of v st ++ new /\
      Forall2 (summary_from tokenizer generate decode v) (firstn n ds) new.
Proof.
  induction ds as [|d rest IH]; intros st.
  - exists 0. cbn. repeat split; auto.
    intros v. exists []. rewrite app_nil_r. split; [reflexivity | constructor].
  - cbn [for_each_without_read]. unfold bind.
    destruct (body_without_read_appends d st) as [(Hr & Hs) | ((e & Hr) & Hs)];
      destruct (body_without_read tokenizer generate decode d st) as [r st'];
      cbn [fst snd] in Hr, Hs; subst r.
    + destruct (IH st') as (n & Hn & Hall & Hv).
      exists (S n). cbn [List.length firstn]. split; [lia|]. split.
      * intros H. rewrite (Hall H). reflexivity.
      * intros v. destruct (Hs v) as (s & Es & Fs). destruct (Hv v) as (new & En & Fn).
        exists (s :: new). split; [|constructor; assumption].
        rewrite En, Es, <- app_assoc. reflexivity.
    + exists 0. cbn [fst snd firstn]. split; [lia|]. split; [discriminate|].
      intros v. exists []. rewrite app_nil_r. split; [apply Hs | constructor].
Qed.

(** When the loop stops, by finishing or by raising, every variant's list
    holds the summaries of the first [n] dialogues, in their order. *)
Lemma run_loop_aligned ns human ds :
  exists n,
    n <= List.length ds /\
    (fst (run_loop tokenizer generate decode ns human ds) = Ok tt -> n = List.length ds) /\
    forall v,
      Forall2 (summary_from tokenizer generate decode v) (firstn n ds)
              (summaries_of v (snd (run_loop tokenizer generate decode ns human ds))).
Proof.
  unfold run_loop. rewrite for_each_read.
  assert (Stop : forall r : result unit,
    (r = Ok tt -> ds = []) ->
    exists n, n <= List.length ds /\
      (fst (r, @initial_state token_ids) = Ok tt -> n = List.length ds) /\
      forall v, Forall2 (summary_from tokenizer generate decode v) (firstn n ds)
                        (summaries_of v (snd (r, @initial_state token_ids)))).
  { intros r Hr. exists 0. split; [lia|]. split.
    - cbn [fst]. intros H. rewrite (Hr H). reflexivity.
    - intros []; constructor. }
  destruct ds as [|d rest] eqn:Eds; [apply Stop; auto|]. rewrite <- Eds in *.
  destruct (load_name ns "idx") as [v|e]; [|apply Stop; discriminate].
  destruct (getitem human v) as [h|e]; [|apply Stop; discriminate].
  destruct (for_each_without_read_aligned ds initial_state) as (n & Hn & Hall & Hv).
  exists n. split; [exact Hn|]. split; [exact Hall|].
  intros w. destruct (Hv w) as (new & En & Fn). rewrite En.
  destruct w; exact Fn.
Qed.

End LoopProperties.

(** * Properties of the scorer *)

Local Open Scope nat_scope.

(** The references are cut to the number of predictions before the metric
    sees them, so the metric's length check fires only when the references
    are the shorter list. *)
Lemma score_slices rouge (predictions human : list string) :
  score rouge predictions human =
  if List.length predictions <=? List.length human
  then Ok (rouge predictions (firstn (List.length predictions) human))
  else Err LengthMismatch.
Proof.
  unfold score, rouge_compute. rewrite length_firstn.
  destruct (Nat.leb_spec (List.length predictions) (List.length human)) as [H|H].
  - rewrite Nat.min_l, Nat.eqb_refl by exact H. reflexivity.
  - rewrite Nat.min_r by lia.
    destruct (Nat.eqb_spec (List.length predictions) (List.length human)); [lia | reflexivity].
Qed.

(** C2 (as amended).  [score] hands the metric the predictions and the first
    [len(predictions)] references.  When the references are at least as many
    as the predictions it succeeds on the references so truncated; it fails
    with [LengthMismatch] exactly when the references are fewer than the
    predictions. *)
Theorem score_truncates_references rouge (predictions human : list string) :
  score rouge predictions human =
    (if List.length predictions <=? List.length human
     then Ok (rouge predictions (firstn (List.length predictions) human))
     else Err LengthMismatch) /\
  (score rouge predictions human = Err LengthMismatch <->
   List.length human < List.length predictions).
Proof.
  split; [apply score_slices|]. rewrite score_slices.
  destruct (Nat.leb_spec (List.length predictions) (List.length human)) as [H|H].
  - split; [discriminate | lia].
  - split; [intros _; exact H | reflexivity].
Qed.

(** C2 (the claim as stated fails).  One prediction against two references:
    the lengths differ, yet [score] returns what the metric gives for the
    prediction and the first reference alone, whatever the metric is. *)
Lemma score_longer_references_counterexample :
  List.length ["a b c"%string] <> List.length ["a b c"%string; "x y z"%string] /\
  forall rouge,
    score rouge ["a b c"%string] ["a b c"%string; "x y z"%string] =
    Ok (rouge ["a b c"%string] ["a b c"%string]).
Proof. split; [discriminate | reflexivity]. Qed.

(** * The pipeline keeps summaries, dialogues and references aligned *)

Section Alignment.

Variable token_ids : Type.
Variable tokenizer : string -> token_ids.
Variable generate : model_variant -> token_ids -> result token_ids.
Variable decode : token_ids -> string.

(** C7.  Whatever the namespace and the test split, when the loop stops (by
    finishing or by raising) every variant's list holds, in order, the
    summaries generated from the dialogues of the first [n] test records,
    with [n] the number of dialogues when the loop finished; each scorer
    call then pairs those summaries with the reference summaries of the same
    [n] records, position by position; and row [i] of the table of zipped
    summaries is made of the entries of index [i]. *)
Theorem summaries_stay_aligned (ns : namespace) (test : list DialogueRecord) :
  exists n,
    n <= List.length (dialogues_of test) /\
    (fst (run_loop tokenizer generate decode ns
            (human_baseline_summaries_of test) (dialogues_of test)) = Ok tt ->
     n = List.length (dialogues_of test)) /\
    (forall v,
       Forall2 (fun rec s => summary_from tokenizer generate decode v (dialogue rec) s)
               (firstn n test)
               (summaries_of v (snd (run_loop tokenizer generate decode ns
                  (human_baseline_summaries_of test) (dialogues_of test))))) /\
    (forall v rouge,
       score rouge
             (summaries_of v (snd (run_loop tokenizer generate decode ns
                (human_baseline_summaries_of test) (dialogues_of test))))
             (human_baseline_summaries_of test) =
       Ok (rouge (summaries_of v (snd (run_loop tokenizer generate decode ns
                    (human_baseline_summaries_of test) (dialogues_of test))))
                 (map summary (firstn n test)))) /\
    (forall i,
       nth_error (zipped_summaries (human_baseline_summaries_of test)
                    (snd (run_loop tokenizer generate decode ns
                       (human_baseline_summaries_of test) (dialogues_of test)))) i =
       match nth_error (human_baseline_summaries_of test) i,
             nth_error (summaries_of original_model (snd (run_loop tokenizer generate decode ns
                (human_baseline_summaries_of test) (dialogues_of test)))) i,
             nth_error (summaries_of instruct_model (snd (run_loop tokenizer generate decode ns
                (human_baseline_summaries_of test) (dialogues_of test)))) i,
             nth_error (summaries_of peft_model (snd (run_loop tokenizer generate decode ns
                (human_baseline_summaries_of test) (dialogues_of test)))) i
       with
       | Some h, Some o, Some s, Some p => Some (h, o, s, p)
       | _, _, _, _ => None
       end).
Proof.
  destruct (run_loop_aligned token_ids tokenizer generate decode ns
              (human_baseline_summaries_of test) (dialogues_of test))
    as (n & Hn & Hall & Hv).
  set (st := snd (run_loop tokenizer generate decode ns
                    (human_baseline_summaries_of test) (dialogues_of test))) in *.
  assert (Hlen : List.length (dialogues_of test) = Nat.min 10 (List.length test)).
  { unfold dialogues_of. rewrite length_map, length_firstn. reflexivity. }
  assert (Hcut : forall A (f : DialogueRecord -> A),
             firstn n (map f (firstn 10 test)) = map f (firstn n test)).
  { intros A f. rewrite firstn_map, firstn_firstn. f_equal. f_equal. lia. }
  exists n. split; [exact Hn|]. split; [exact Hall|]. split; [|split].
  - intros v. apply Forall2_map_left. rewrite <- Hcut. apply Hv.
  - intros v rouge. rewrite score_slices.
    assert (Hs : List.length (summaries_of v st) = n).
    { rewrite <- (Forall2_length (Hv v)), length_firstn. lia. }
    rewrite Hs. unfold human_baseline_summaries_of at 1 2.
    rewrite length_map, length_firstn, Hcut.
    destruct (Nat.leb_spec n (Nat.min 10 (List.length test))); [reflexivity | lia].
  - intros i. apply nth_error_zip4.
Qed.

(** C10.  No cell binds [idx], so in a new kernel the name is unbound when
    the loop body reads [human_baseline_summaries[idx]]: with at least one
    dialogue the first pass raises [NameError] while the three lists are
    still empty and no model has been called.  In any namespace the read
    only decides whether the loop raises at once; when it goes through, the
    loop computes what it would compute without that statement. *)
Theorem loop_reads_unbound_idx
        (ns : namespace) (human ds : list string) (d : string) (rest : list string) :
  fresh_namespace "idx"%string = None /\
  run_loop tokenizer generate decode fresh_namespace human (d :: rest) =
    (Err (NameError "idx"), initial_state) /\
  calls (snd (run_loop tokenizer generate decode fresh_namespace human (d :: rest))) = [] /\
  run_loop tokenizer generate decode ns human ds =
    match ds with
    | [] => (Ok tt, initial_state)
    | _ :: _ =>
        match load_name ns "idx" with
        | Err e => (Err e, initial_state)
        | Ok v =>
            match getitem human v with
            | Err e => (Err e, initial_state)
            | Ok _ => for_each_without_read tokenizer generate decode ds initial_state
            end
        end
    end.
Proof.
  assert (E : run_loop tokenizer generate decode fresh_namespace human (d :: rest) =
              (Err (NameError "idx"), initial_state)).
  { unfold run_loop. rewrite for_each_read. reflexivity. }
  split; [reflexivity|]. split; [exact E|]. split; [rewrite E; reflexivity|].
  unfold run_loop. apply for_each_read.
Qed.

End Alignment.

(** The loop on two records, with stand-ins for the models and [idx] left
    bound to [0]: it finishes, and each list holds one summary per record,
    in the order of the records. *)
Example echo_run :
  run_loop (fun prompt => prompt) echo_generate (fun outputs => outputs)
           (with_idx (PyInt 0))
           (human_baseline_summaries_of two_records) (dialogues_of two_records) =
  (Ok tt,
   {| original_model_summaries :=
        [ ("original: " ++ Quantitative.prompt "#Person1#: Hi.")%string;
          ("original: " ++ Quantitative.prompt "#Person2#: Bye.")%string ];
      instruct_model_summaries :=
        [ ("instruct: " ++ Quantitative.prompt "#Person1#: Hi.")%string;
          ("instruct: " ++ Quantitative.prompt "#Person2#: Bye.")%string ];
      peft_model_summaries :=
        [ ("peft: " ++ Quantitative.prompt "#Person1#: Hi.")%string;
          ("peft: " ++ Quantitative.prompt "#Person2#: Bye.")%string ];
      calls :=
        [ (peft_model, Quantitative.prompt "#Person2#: Bye.");
          (instruct_model, Quantitative.prompt "#Person2#: Bye.");
          (original_model, Quantitative.prompt "#Person2#: Bye.");
          (peft_model, Quantitative.prompt "#Person1#: Hi.");
          (instruct_model, Quantitative.prompt "#Person1#: Hi.");
          (original_model, Quantitative.prompt "#Person1#: Hi.") ] |}).
Proof. reflexivity. Qed.

(** With [idx] bound out of range the first pass raises [IndexError]. *)
Example echo_run_index_error :
  run_loop (fun prompt => prompt) echo_generate (fun outputs => outputs)
           (with_idx (PyInt 2))
           (human_baseline_summaries_of two_records) (dialogues_of two_records) =
  (Err IndexError, initial_state).
Proof. reflexivity. Qed.

(** * Binary64 arithmetic on scores

    The facts about [x - y] and [value * 100] that the comparator rests on,
    proved on the representations and carried to the primitive floats by the
    standard library's specification of the operations. *)

Local Open Scope Z_scope.

Lemma emin_value : emin = -1074.
Proof. reflexivity. Qed.

Lemma fexp_ge_emin z : emin <= fexp z.
Proof. unfold SpecFloat.fexp. lia. Qed.

Lemma Zdigits2_pos_iff z : 0 <= z -> (0 < Zdigits2 z <-> 0 < z).
Proof. destruct z; simpl; lia. Qed.

(** One right shift drops one binary digit and keeps the sign. *)
Lemma shr_1_digits s :
  0 <= shr_m s ->
  0 <= shr_m (shr_1 s) /\
  Zdigits2 (shr_m (shr_1 s)) = Z.max 0 (Zdigits2 (shr_m s) - 1).
Proof.
  destruct s as [m r t]; cbn [shr_m shr_1]; intros Hm.
  destruct m as [|p|p]; [cbn; lia| |lia].
  destruct p; cbn [shr_m Zdigits2 digits2_pos]; rewrite ?Pos2Z.inj_succ; lia.
Qed.

Lemma iter_shr_1_digits p : forall s,
  0 <= shr_m s ->
  0 <= shr_m (iter_pos shr_1 p s) /\
  Zdigits2 (shr_m (iter_pos shr_1 p s)) = Z.max 0 (Zdigits2 (shr_m s) - Z.pos p).
Proof.
  induction p as [p IH|p IH|]; intros s Hs; simpl.
  - destruct (shr_1_digits s Hs) as [H1 E1].
    destruct (IH _ H1) as [H2 E2].
    destruct (IH _ H2) as [H3 E3].
    split; [exact H3|]. rewrite E3, E2, E1. lia.
  - destruct (IH _ Hs) as [H2 E2].
    destruct (IH _ H2) as [H3 E3].
    split; [exact H3|]. rewrite E3, E2. lia.
  - apply shr_1_digits; exact Hs.
Qed.

Lemma shr_record_of_loc_m m l : shr_m (shr_record_of_loc m l) = m.
Proof. destruct l as [|[]]; reflexivity. Qed.

(** Aligning a positive mantissa whose value is at least [2^emin] keeps it
    positive, at an exponent no lower than [emin]. *)
Lemma shr_fexp_positive m e l :
  emin < Z.pos (digits2_pos m) + e ->
  0 < shr_m (fst (shr_fexp prec emax (Z.pos m) e l)) /\
  emin <= snd (shr_fexp prec emax (Z.pos m) e l).
Proof.
  intros H. unfold shr_fexp, shr. simpl Zdigits2.
  set (d := Z.pos (digits2_pos m)) in *.
  assert (Hf : fexp (d + e) - e < d /\ emin <= fexp (d + e)).
  { unfold SpecFloat.fexp. rewrite emin_value in *. unfold prec. lia. }
  destruct (fexp (d + e) - e) as [|n|n] eqn:En; simpl.
  - rewrite shr_record_of_loc_m. lia.
  - assert (Hs : 0 <= shr_m (shr_record_of_loc (Z.pos m) l))
      by (rewrite shr_record_of_loc_m; lia).
    destruct (iter_shr_1_digits n _ Hs) as [H1 E1].
    rewrite shr_record_of_loc_m in E1. simpl Zdigits2 in E1. fold d in E1.
    split.
    + apply Zdigits2_pos_iff; [exact H1|]. lia.
    + lia.
  - rewrite shr_record_of_loc_m. lia.
Qed.

Lemma round_nearest_even_ge m l : m <= round_nearest_even m l.
Proof.
  unfold round_nearest_even. destruct l as [|[]]; try lia.
  destruct (Z.even m); lia.
Qed.

Lemma round_aux_nonzero s m e l :
  emin < Z.pos (digits2_pos m) + e ->
  signed_nonzero s (round_aux s (Z.pos m) e l).
Proof.
  intros H. unfold binary_round_aux.
  destruct (shr_fexp_positive m e l H) as [Hm He].
  destruct (shr_fexp prec emax (Z.pos m) e l) as [mrs' e'] eqn:E1.
  simpl in Hm, He.
  pose proof (round_nearest_even_ge (shr_m mrs') (loc_of_shr_record mrs')) as Hr.
  destruct (round_nearest_even (shr_m mrs') (loc_of_shr_record mrs')) as [|m1|m1] eqn:E2;
    try lia.
  assert (H1 : emin < Z.pos (digits2_pos m1) + e') by lia.
  destruct (shr_fexp_positive m1 e' loc_Exact H1) as [Hm2 He2].
  destruct (shr_fexp prec emax (Z.pos m1) e' loc_Exact) as [mrs'' e''] eqn:E3.
  simpl in Hm2, He2.
  destruct (shr_m mrs'') as [|m2|m2]; try lia.
  destruct (e'' <=? emax - prec); constructor; assumption.
Qed.

Lemma round_aux_opp s m e l :
  round_aux (negb s) m e l = SFopp (round_aux s m e l).
Proof.
  unfold binary_round_aux.
  destruct (shr_fexp prec emax m e l) as [mrs' e'].
  destruct (shr_fexp prec emax _ e' loc_Exact) as [mrs'' e''].
  destruct (shr_m mrs''); try reflexivity.
  destruct (e'' <=? emax - prec); reflexivity.
Qed.

(** [digits2_pos m] is the number of binary digits of [m]. *)
Lemma digits2_pos_bounds m :
  2 ^ (Z.pos (digits2_pos m) - 1) <= Z.pos m < 2 ^ Z.pos (digits2_pos m).
Proof.
  induction m as [m IH|m IH|]; cbn [digits2_pos].
  - rewrite Pos2Z.inj_succ, Z.pow_succ_r by lia.
    replace (Z.succ (Z.pos (digits2_pos m)) - 1) with (Z.succ (Z.pos (digits2_pos m) - 1)) by lia.
    rewrite Z.pow_succ_r by lia. lia.
  - rewrite Pos2Z.inj_succ, Z.pow_succ_r by lia.
    replace (Z.succ (Z.pos (digits2_pos m)) - 1) with (Z.succ (Z.pos (digits2_pos m) - 1)) by lia.
    rewrite Z.pow_succ_r by lia. lia.
  - cbn. lia.
Qed.

Lemma digits2_pos_le a b :
  (a <= b)%positive -> Z.pos (digits2_pos a) <= Z.pos (digits2_pos b).
Proof.
  intros Hab.
  pose proof (digits2_pos_bounds a) as [Ha _].
  pose proof (digits2_pos_bounds b) as [_ Hb].
  assert (H : 2 ^ (Z.pos (digits2_pos a) - 1) < 2 ^ Z.pos (digits2_pos b)) by lia.
  apply Z.pow_lt_mono_r_iff in H; lia.
Qed.

Lemma shift_left_value m k : Z.pos (Pos.iter xO m k) = Z.pos m * 2 ^ Z.pos k.
Proof.
  change (Pos.iter xO m k) with (shift_pos k m).
  rewrite shift_pos_correct, Z.pow_pos_fold. lia.
Qed.

Lemma shl_align_value m e e' :
  e' <= e -> Z.pos (fst (shl_align m e e')) = Z.pos m * 2 ^ (e - e').
Proof.
  intros H. unfold shl_align.
  destruct (e' - e) as [|k|k] eqn:E; cbn [fst]; try lia.
  - replace (e - e') with 0 by lia. lia.
  - rewrite shift_left_value. f_equal. f_equal. lia.
Qed.

Lemma bounded_cases m e :
  bounded prec emax m e = true ->
  emin <= e /\ Z.pos (digits2_pos m) <= prec /\
  (emin < e -> Z.pos (digits2_pos m) = prec).
Proof.
  unfold bounded, canonical_mantissa, SpecFloat.fexp.
  rewrite andb_true_iff, Z.eqb_eq. rewrite emin_value. unfold prec. lia.
Qed.

(** On canonical non-negative floats, [SFcompare] orders the values, read
    off the mantissas aligned at the smaller exponent. *)
Lemma SFcompare_aligned mx ex my ey :
  bounded prec emax mx ex = true ->
  bounded prec emax my ey = true ->
  SFcompare (S754_finite false mx ex) (S754_finite false my ey) =
  Some (Z.pos mx * 2 ^ (ex - Z.min ex ey) ?= Z.pos my * 2 ^ (ey - Z.min ex ey)).
Proof.
  intros Hx Hy.
  destruct (bounded_cases _ _ Hx) as (Hex & Hdx & Hnx).
  destruct (bounded_cases _ _ Hy) as (Hey & Hdy & Hny).
  pose proof (digits2_pos_bounds mx) as [Lx Ux].
  pose proof (digits2_pos_bounds my) as [Ly Uy].
  assert (P53 : 2 ^ prec = 2 * 2 ^ (prec - 1)) by reflexivity.
  cbn [SFcompare]. f_equal.
  destruct (Z.compare_spec ex ey) as [E|L|G].
  - subst ey. rewrite Z.min_id, Z.sub_diag, !Z.mul_1_r.
    rewrite Pos.compare_cont_spec. change (Z.pos mx ?= Z.pos my) with (mx ?= my)%positive.
    destruct (mx ?= my)%positive; reflexivity.
  - rewrite Z.min_l, Z.sub_diag, Z.mul_1_r by lia. symmetry. apply Z.compare_lt_iff.
    rewrite Hny in Ly by lia.
    assert (U : Z.pos mx < 2 ^ prec).
    { eapply Z.lt_le_trans; [exact Ux|]. apply Z.pow_le_mono_r; lia. }
    assert (K : 2 ^ 1 <= 2 ^ (ey - ex)) by (apply Z.pow_le_mono_r; lia).
    change (2 ^ 1) with 2 in K. nia.
  - rewrite Z.min_r, Z.sub_diag, Z.mul_1_r by lia. symmetry. apply Z.compare_gt_iff.
    rewrite Hnx in Lx by lia.
    assert (U : Z.pos my < 2 ^ prec).
    { eapply Z.lt_le_trans; [exact Uy|]. apply Z.pow_le_mono_r; lia. }
    assert (K : 2 ^ 1 <= 2 ^ (ex - ey)) by (apply Z.pow_le_mono_r; lia).
    change (2 ^ 1) with 2 in K. nia.
Qed.

Lemma binary_round_nonzero s m e :
  emin <= e -> signed_nonzero s (binary_round prec emax s m e).
Proof.
  intros He. unfold binary_round, shl_align.
  pose proof (fexp_ge_emin (Z.pos (digits2_pos m) + e)) as Hf.
  destruct (fexp (Z.pos (digits2_pos m) + e) - e) as [|k|k];
    apply round_aux_nonzero; lia.
Qed.

Lemma binary_round_opp s m e :
  binary_round prec emax (negb s) m e = SFopp (binary_round prec emax s m e).
Proof.
  unfold binary_round.
  destruct (shl_align m e _) as [mz ez]. apply round_aux_opp.
Qed.

(** A difference of aligned mantissas rounds to a float of the same sign. *)
Lemma binary_normalize_sign d e :
  emin <= e ->
  match d with
  | Z0 => binary_normalize prec emax d e false = S754_zero false
  | Zpos _ => signed_nonzero false (binary_normalize prec emax d e false)
  | Zneg _ => signed_nonzero true (binary_normalize prec emax d e false)
  end.
Proof.
  intros He. destruct d; cbn [binary_normalize];
    [reflexivity | apply binary_round_nonzero | apply binary_round_nonzero]; exact He.
Qed.

Lemma binary_normalize_opp d e :
  d <> 0 ->
  binary_normalize prec emax (- d) e false = SFopp (binary_normalize prec emax d e false).
Proof.
  destruct d as [|p|p]; intros H; [contradiction| |]; cbn [Z.opp binary_normalize].
  - apply (binary_round_opp false).
  - rewrite <- (binary_round_opp true). reflexivity.
Qed.

Lemma mul_SF100_nonzero s X :
  signed_nonzero s X -> signed_nonzero s (SF64mul X SF100).
Proof.
  intros [m e He|]; unfold SF64mul, SF100; cbn [SFmul]; rewrite xorb_false_r;
    [|constructor].
  apply round_aux_nonzero.
  assert (H : Z.pos (digits2_pos 7036874417766400) <= Z.pos (digits2_pos (m * 7036874417766400))).
  { apply digits2_pos_le. nia. }
  change (Z.pos (digits2_pos 7036874417766400)) with 53 in H.
  rewrite emin_value in *. lia.
Qed.

Lemma mul_SF100_opp s X :
  signed_nonzero s X -> SF64mul (SFopp X) SF100 = SFopp (SF64mul X SF100).
Proof.
  intros [m e He|]; unfold SF64mul, SF100; cbn [SFopp SFmul].
  - rewrite !xorb_false_r. apply round_aux_opp.
  - rewrite !xorb_false_r. reflexivity.
Qed.

Lemma SFltb_zero_signed s X :
  signed_nonzero s X -> SFltb (S754_zero false) X = negb s.
Proof. intros [m e He|]; destruct s; reflexivity. Qed.

Lemma SFeqb_refl_signed s X : signed_nonzero s X -> SFeqb X X = true.
Proof.
  intros [m e He|]; unfold SFeqb; destruct s; cbn [SFcompare];
    rewrite ?Z.compare_refl, ?Pos.compare_cont_refl; reflexivity.
Qed.

Lemma SF64sub_finite mx ex my ey :
  SF64sub (S754_finite false mx ex) (S754_finite false my ey) =
  binary_normalize prec emax
    (Z.pos mx * 2 ^ (ex - Z.min ex ey) - Z.pos my * 2 ^ (ey - Z.min ex ey))
    (Z.min ex ey) false.
Proof.
  unfold SF64sub. cbn [SFsub cond_Zopp].
  rewrite !shl_align_value by lia. reflexivity.
Qed.

Lemma signed_nonzero_opp s X :
  signed_nonzero s X -> signed_nonzero (negb s) (SFopp X).
Proof. intros [m e He|]; constructor; assumption. Qed.

(** Subtracting two scores: the result is a zero when they are equal, and
    otherwise carries the sign of the difference; swapping the operands
    negates it. *)
Lemma SF64sub_score X Y :
  score_repr X -> score_repr Y ->
  (SFcompare Y X = Some Eq /\
   (exists s, SF64sub X Y = S754_zero s) /\ (exists s, SF64sub Y X = S754_zero s)) \/
  (exists s : bool, SFcompare Y X = Some (if s then Gt else Lt) /\
             signed_nonzero s (SF64sub X Y) /\
             SF64sub Y X = SFopp (SF64sub X Y)).
Proof.
  intros [sx|mx ex Hx] [sy|my ey Hy].
  - left. split; [reflexivity|].
    split; [exists (andb sx (negb sy)) | exists (andb sy (negb sx))];
      destruct sx, sy; reflexivity.
  - right. exists true. destruct (bounded_cases _ _ Hy) as (He & _).
    split; [reflexivity|]. split; [constructor; exact He | reflexivity].
  - right. exists false. destruct (bounded_cases _ _ Hx) as (He & _).
    split; [reflexivity|]. split; [constructor; exact He | reflexivity].
  - destruct (bounded_cases _ _ Hx) as (Hex & _).
    destruct (bounded_cases _ _ Hy) as (Hey & _).
    rewrite (SFcompare_aligned _ _ _ _ Hy Hx), !SF64sub_finite.
    rewrite (Z.min_comm ey ex).
    set (ez := Z.min ex ey).
    set (ax := Z.pos mx * 2 ^ (ex - ez)).
    set (ay := Z.pos my * 2 ^ (ey - ez)).
    assert (Hez : emin <= ez) by (unfold ez; lia).
    pose proof (binary_normalize_sign (ax - ay) ez Hez) as Hs.
    destruct (Z.compare_spec ay ax) as [E|L|G].
    + left. split; [reflexivity|].
      replace (ax - ay) with 0 by lia. replace (ay - ax) with 0 by lia.
      split; exists false; reflexivity.
    + right. exists false. split; [reflexivity|].
      replace (ay - ax) with (- (ax - ay)) by lia.
      rewrite binary_normalize_opp by lia.
      destruct (ax - ay) eqn:E; try lia. split; [exact Hs | reflexivity].
    + right. exists true. split; [reflexivity|].
      replace (ay - ax) with (- (ax - ay)) by lia.
      rewrite binary_normalize_opp by lia.
      destruct (ax - ay) eqn:E; try lia. split; [exact Hs | reflexivity].
Qed.

Lemma SF_delta_sign X Y :
  score_repr X -> score_repr Y ->
  SFltb (S754_zero false) (SF64mul (SF64sub X Y) SF100) = SFltb Y X.
Proof.
  intros HX HY.
  destruct (SF64sub_score X Y HX HY) as [(C & (s & E) & _) | (s & C & N & _)];
    unfold SFltb at 2; rewrite C.
  - rewrite E. reflexivity.
  - rewrite (SFltb_zero_signed s) by (apply mul_SF100_nonzero; exact N).
    destruct s; reflexivity.
Qed.

Lemma SF_delta_opp X Y :
  score_repr X -> score_repr Y ->
  SFeqb (SF64mul (SF64sub Y X) SF100) (SFopp (SF64mul (SF64sub X Y) SF100)) = true.
Proof.
  intros HX HY.
  destruct (SF64sub_score X Y HX HY) as [(_ & (s & E) & (s' & E')) | (s & _ & N & E)].
  - rewrite E, E'. reflexivity.
  - rewrite E, (mul_SF100_opp s) by exact N.
    apply (SFeqb_refl_signed (negb s)), signed_nonzero_opp, mul_SF100_nonzero, N.
Qed.

Lemma SF_delta_self X :
  score_repr X -> SF64mul (SF64sub X X) SF100 = S754_zero false.
Proof.
  intros [s|m e H].
  - destruct s; reflexivity.
  - rewrite SF64sub_finite, Z.sub_diag. reflexivity.
Qed.

Local Open Scope float_scope.

Lemma Prim2SF_100 : Prim2SF 100 = SF100.
Proof. reflexivity. Qed.

Lemma valid_score_repr x : valid_score x = true -> score_repr (Prim2SF x).
Proof.
  unfold valid_score. rewrite andb_true_iff, !leb_spec.
  change (Prim2SF 0) with (S754_zero false).
  change (Prim2SF 1) with (S754_finite false 4503599627370496 (-52)).
  pose proof (Prim2SF_valid x) as V.
  destruct (Prim2SF x) as [s|s| |s m e]; intros [H0 H1].
  - constructor.
  - destruct s; discriminate.
  - discriminate.
  - destruct s; [discriminate|]. constructor. exact V.
Qed.

Lemma delta_sign x y :
  valid_score x = true -> valid_score y = true ->
  (0 <? (x - y) * 100) = (y <? x).
Proof.
  intros Hx Hy. rewrite !ltb_spec, mul_spec, sub_spec, Prim2SF_100.
  apply SF_delta_sign; apply valid_score_repr; assumption.
Qed.

Lemma delta_opp x y :
  valid_score x = true -> valid_score y = true ->
  ((y - x) * 100 =? - ((x - y) * 100)) = true.
Proof.
  intros Hx Hy. rewrite eqb_spec, opp_spec, !mul_spec, !sub_spec, Prim2SF_100.
  apply SF_delta_opp; apply valid_score_repr; assumption.
Qed.

Lemma delta_self x : valid_score x = true -> (x - x) * 100 = 0.
Proof.
  intros Hx. apply Prim2SF_inj. rewrite mul_spec, sub_spec, Prim2SF_100.
  apply SF_delta_self, valid_score_repr, Hx.
Qed.

Lemma SF64mul_comm X Y : SF64mul X Y = SF64mul Y X.
Proof.
  destruct X as [sx|sx| |sx mx ex], Y as [sy|sy| |sy my ey];
    unfold SF64mul; cbn [SFmul]; rewrite ?(xorb_comm sx sy); try reflexivity.
  rewrite (Pos.mul_comm mx my), (Z.add_comm ex ey). reflexivity.
Qed.

Lemma mul_comm (x y : float) : x * y = y * x.
Proof. apply Prim2SF_inj. rewrite !mul_spec. apply SF64mul_comm. Qed.

(** * Properties of the comparator *)

Local Close Scope Z_scope.
Local Open Scope nat_scope.
Local Open Scope float_scope.

Lemma np_subtract_same_length (xs ys : list float) :
  List.length xs = List.length ys ->
  np_subtract xs ys = Ok (map (fun '(x, y) => x - y) (combine xs ys)).
Proof. intros H. unfold np_subtract. rewrite H, Nat.eqb_refl. reflexivity. Qed.

(** NumPy refuses exactly the pairs of lengths that differ with neither of
    them equal to one. *)
Lemma np_subtract_raises (xs ys : list float) (e : exn) :
  np_subtract xs ys = Err e <->
  e = ValueError /\ List.length xs <> List.length ys /\
  List.length xs <> 1%nat /\ List.length ys <> 1%nat.
Proof.
  unfold np_subtract.
  destruct (Nat.eqb_spec (List.length xs) (List.length ys)) as [E|N].
  - split; [discriminate | intros (_ & H & _); contradiction].
  - destruct xs as [|x [|x' xs]], ys as [|y [|y' ys]]; cbn in *;
      (split; [intros H; try discriminate H; injection H as <-; repeat split; congruence
              | intros (-> & H1 & H2 & H3); try reflexivity; congruence]).
Qed.

Lemma combine_deltas (a b : ScoreSet) :
  map (fun '(key, value) => (key, value * 100))
      (combine (keys a) (map (fun '(x, y) => x - y) (combine (values a) (values b)))) =
  deltas a b.
Proof.
  unfold deltas. revert b. induction a as [|[k x] a IH]; intros [|[k' y] b];
    cbn; try reflexivity.
  f_equal. apply IH.
Qed.

Lemma compare_same_length (a b : ScoreSet) :
  List.length a = List.length b -> compare a b = Ok (deltas a b).
Proof.
  intros H. unfold compare, improvement.
  rewrite np_subtract_same_length by (unfold values; rewrite !length_map; exact H).
  rewrite combine_deltas. reflexivity.
Qed.

Lemma keys_length (a b : ScoreSet) : keys a = keys b -> List.length a = List.length b.
Proof. intros H. apply (f_equal (@List.length string)) in H. unfold keys in H.
       now rewrite !length_map in H. Qed.

Lemma keys_deltas (a b : ScoreSet) : keys a = keys b -> keys (deltas a b) = keys a.
Proof.
  unfold deltas. revert b. induction a as [|[k x] a IH]; intros [|[k' y] b] H;
    cbn in *; try reflexivity; try discriminate.
  injection H as _ H. f_equal. apply IH, H.
Qed.

(** With the keys in one order, looking a metric up in the result pairs the
    two scores of that metric. *)
Lemma get_deltas (a b : ScoreSet) (k : string) :
  keys a = keys b ->
  get (deltas a b) k =
  match get a k, get b k with
  | Some x, Some y => Some ((x - y) * 100)
  | _, _ => None
  end.
Proof.
  unfold deltas. revert b. induction a as [|[k1 x] a IH]; intros [|[k2 y] b] H;
    cbn in *; try reflexivity; try discriminate.
  injection H as <- H. destruct (String.eqb k k1); [reflexivity | apply IH, H].
Qed.

Lemma get_In (a : ScoreSet) (k : string) :
  In k (keys a) -> exists x, get a k = Some x /\ In x (values a).
Proof.
  induction a as [|[k1 x] a IH]; cbn; [contradiction|]. intros H.
  destruct (String.eqb_spec k k1) as [->|N].
  - exists x. auto.
  - destruct H as [H|H]; [congruence|]. destruct (IH H) as (v & Hv & Hin). eauto.
Qed.

Lemma valid_scores_In (a : ScoreSet) (x : float) :
  valid_scores a = true -> In x (values a) -> valid_score x = true.
Proof. unfold valid_scores. rewrite forallb_forall. auto. Qed.

Lemma deltas_self (a : ScoreSet) :
  valid_scores a = true -> deltas a a = map (fun key => (key, 0)) (keys a).
Proof.
  unfold deltas, valid_scores. induction a as [|[k x] a IH]; cbn; [reflexivity|].
  rewrite andb_true_iff. intros [Hx Ha]. rewrite delta_self by exact Hx.
  f_equal. apply IH, Ha.
Qed.

Lemma reordered_a_wf : dict_wf reordered_a.
Proof. repeat constructor; cbn; intuition discriminate. Qed.

Lemma reordered_b_wf : dict_wf reordered_b.
Proof. repeat constructor; cbn; intuition discriminate. Qed.

Lemma reordered_same_key_set : same_key_set reordered_a reordered_b.
Proof. intros k; cbn; tauto. Qed.

(** The score sets the notebook recorded are well-formed and hold valid
    scores, under the same keys in the same order. *)
Lemma recorded_results_wf :
  Forall (fun d => dict_wf d /\ valid_scores d = true /\
                   keys d = [ "rouge1"; "rouge2"; "rougeL"; "rougeLsum" ]%string)
         [ TenRows.original_model_results; TenRows.instruct_model_results;
           TenRows.peft_model_results; FullTestSet.original_model_results;
           FullTestSet.instruct_model_results; FullTestSet.peft_model_results ].
Proof.
  repeat (constructor; [split; [repeat constructor; cbn; intuition discriminate
                               | split; reflexivity]|]).
  constructor.
Qed.

(** C3 (as amended).  For two score sets of valid scores whose keys come in
    the same order, [compare a b] succeeds, keeps the keys of [a], and maps
    every metric [k] to [100 * (a[k] - b[k])]; that delta is positive exactly
    when [a[k]] is greater than [b[k]]. *)
Theorem compare_same_key_order (a b : ScoreSet) :
  keys a = keys b ->
  valid_scores a = true ->
  valid_scores b = true ->
  exists r,
    compare a b = Ok r /\
    keys r = keys a /\
    forall k, In k (keys a) ->
      exists x y,
        get a k = Some x /\ get b k = Some y /\
        get r k = Some (100 * (x - y)) /\
        (0 <? 100 * (x - y)) = (y <? x).
Proof.
  intros Hk Ha Hb. exists (deltas a b).
  split; [apply compare_same_length, keys_length, Hk|].
  split; [apply keys_deltas, Hk|].
  intros k Hin.
  destruct (get_In a k Hin) as (x & Hx & Vx).
  rewrite Hk in Hin. destruct (get_In b k Hin) as (y & Hy & Vy).
  exists x, y. rewrite get_deltas, Hx, Hy by exact Hk.
  rewrite (mul_comm 100). repeat split.
  apply delta_sign; [exact (valid_scores_In a x Ha Vx) | exact (valid_scores_In b y Hb Vy)].
Qed.

(** The theorem on the instruct and original scores of the ten-row batch. *)
Lemma compare_same_key_order_witness :
  exists r,
    compare TenRows.instruct_model_results TenRows.original_model_results = Ok r /\
    keys r = keys TenRows.instruct_model_results /\
    forall k, In k (keys TenRows.instruct_model_results) ->
      exists x y,
        get TenRows.instruct_model_results k = Some x /\
        get TenRows.original_model_results k = Some y /\
        get r k = Some (100 * (x - y)) /\
        (0 <? 100 * (x - y)) = (y <? x).
Proof.
  apply (compare_same_key_order TenRows.instruct_model_results
                                TenRows.original_model_results);
    reflexivity.
Defined.

(** C3 (the claim as stated fails).  [reordered_a] and [reordered_b] have the
    same set of keys, inserted in different orders.  The claim gives
    [rouge1] the delta [100 * (0.5 - 1) = -50], and [reordered_a] does not
    outperform [reordered_b] on [rouge1]; the code pairs [rouge1] of the one
    with [rouge2] of the other and reports [37.5], a positive delta. *)
Lemma compare_reordered_counterexample :
  dict_wf reordered_a /\ dict_wf reordered_b /\
  same_key_set reordered_a reordered_b /\
  get reordered_a "rouge1" = Some 0.5 /\
  get reordered_b "rouge1" = Some 1 /\
  100 * (0.5 - 1) = -50 /\
  (1 <? 0.5) = false /\
  compare reordered_a reordered_b = Ok [ ("rouge1"%string, 37.5); ("rouge2"%string, -75) ].
Proof.
  split; [apply reordered_a_wf|]. split; [apply reordered_b_wf|].
  split; [apply reordered_same_key_set|]. repeat split.
Qed.

(** C4 (as amended).  [compare] never reads the keys of its second argument:
    it depends on it through its values alone.  On score sets of one length
    it produces a result, whatever their keys; it raises exactly when the
    lengths differ and neither is one, and what it raises is NumPy's
    [ValueError]. *)
Theorem compare_pairs_by_position (a b : ScoreSet) :
  (forall b', values b' = values b -> compare a b' = compare a b) /\
  (List.length a = List.length b -> compare a b = Ok (deltas a b)) /\
  (compare a b = Err ValueError <->
   List.length a <> List.length b /\ List.length a <> 1%nat /\ List.length b <> 1%nat) /\
  (forall e, compare a b = Err e -> e = ValueError).
Proof.
  assert (R : forall e, compare a b = Err e <->
                        e = ValueError /\ List.length a <> List.length b /\
                        List.length a <> 1%nat /\ List.length b <> 1%nat).
  { intros e. unfold compare, improvement.
    pose proof (np_subtract_raises (values a) (values b) e) as H.
    unfold values in H at 3 4 5 6. rewrite !length_map in H. rewrite <- H.
    destruct (np_subtract (values a) (values b)); split; congruence. }
  split; [|split; [|split]].
  - intros b' H. unfold compare, improvement. rewrite H. reflexivity.
  - apply compare_same_length.
  - rewrite R. tauto.
  - intros e H. apply R in H. tauto.
Qed.

(** C4 (the claim as stated fails).  The two score sets have different
    keys, and [compare] returns a delta all the same. *)
Lemma compare_different_keys_counterexample :
  dict_wf only_rouge1 /\ dict_wf only_rouge2 /\
  keys only_rouge1 <> keys only_rouge2 /\
  ~ same_key_set only_rouge1 only_rouge2 /\
  compare only_rouge1 only_rouge2 = Ok [ ("rouge1"%string, 25) ].
Proof.
  split; [repeat constructor; cbn; tauto|]. split; [repeat constructor; cbn; tauto|].
  split; [discriminate|]. split; [|reflexivity].
  intros H. destruct (H "rouge1"%string) as [H1 _]. cbn in H1.
  destruct H1 as [H1|[]]; [left; reflexivity | discriminate H1].
Qed.

(** A score set of four metrics against one of a single metric: NumPy
    stretches the single value over the four. *)
Example compare_broadcasts :
  compare TenRows.original_model_results only_rouge2 =
  Ok [ ("rouge1"%string, (0.2566893144878768 - 0.25) * 100);
       ("rouge2"%string, (0.1294486893343586 - 0.25) * 100);
       ("rougeL"%string, (0.22765512517993816 - 0.25) * 100);
       ("rougeLsum"%string, (0.23187734563950757 - 0.25) * 100) ].
Proof. reflexivity. Qed.

(** C5 (as amended).  For score sets of valid scores, [compare a a] is zero
    on every metric; and when the keys of [a] and [b] come in the same order,
    [compare b a] gives every metric the negation of what [compare a b]
    gives it, equal as floats compare (a zero delta is [+0.0] both ways). *)
Theorem compare_self_zero_and_swap_negates (a b : ScoreSet) :
  keys a = keys b ->
  valid_scores a = true ->
  valid_scores b = true ->
  compare a a = Ok (map (fun key => (key, 0)) (keys a)) /\
  exists r r',
    compare a b = Ok r /\ compare b a = Ok r' /\
    keys r = keys a /\ keys r' = keys a /\
    forall k, In k (keys a) ->
      exists d d', get r k = Some d /\ get r' k = Some d' /\ (d' =? - d) = true.
Proof.
  intros Hk Ha Hb. split.
  - rewrite compare_same_length by reflexivity. f_equal. apply deltas_self, Ha.
  - exists (deltas a b), (deltas b a).
    split; [apply compare_same_length, keys_length, Hk|].
    split; [apply compare_same_length, keys_length; symmetry; exact Hk|].
    split; [apply keys_deltas, Hk|].
    split; [rewrite keys_deltas by (symmetry; exact Hk); symmetry; exact Hk|].
    intros k Hin.
    destruct (get_In a k Hin) as (x & Hx & Vx).
    rewrite Hk in Hin. destruct (get_In b k Hin) as (y & Hy & Vy).
    exists ((x - y) * 100), ((y - x) * 100).
    rewrite !get_deltas, Hx, Hy by (exact Hk || (symmetry; exact Hk)).
    repeat split.
    apply delta_opp; [exact (valid_scores_In a x Ha Vx) | exact (valid_scores_In b y Hb Vy)].
Qed.

(** The theorem on the PEFT and instruct scores of the ten-row batch. *)
Lemma compare_self_zero_and_swap_negates_witness :
  compare TenRows.peft_model_results TenRows.peft_model_results =
    Ok (map (fun key => (key, 0)) (keys TenRows.peft_model_results)) /\
  exists r r',
    compare TenRows.peft_model_results TenRows.instruct_model_results = Ok r /\
    compare TenRows.instruct_model_results TenRows.peft_model_results = Ok r' /\
    keys r = keys TenRows.peft_model_results /\
    keys r' = keys TenRows.peft_model_results /\
    forall k, In k (keys TenRows.peft_model_results) ->
      exists d d', get r k = Some d /\ get r' k = Some d' /\ (d' =? - d) = true.
Proof.
  apply (compare_self_zero_and_swap_negates TenRows.peft_model_results
                                            TenRows.instruct_model_results);
    reflexivity.
Defined.

(** C5 (the claim as stated fails).  [reordered_a] and [reordered_b] are
    valid and have the same set of keys.  Swapping the arguments negates the
    deltas position by position, but labels them with the keys of the other
    score set: [rouge1] gets [37.5] one way and [75], not [-37.5], the other
    way. *)
Lemma compare_swap_reordered_counterexample :
  dict_wf reordered_a /\ dict_wf reordered_b /\
  same_key_set reordered_a reordered_b /\
  valid_scores reordered_a = true /\
  valid_scores reordered_b = true /\
  compare reordered_a reordered_b = Ok [ ("rouge1"%string, 37.5); ("rouge2"%string, -75) ] /\
  compare reordered_b reordered_a = Ok [ ("rouge2"%string, -37.5); ("rouge1"%string, 75) ] /\
  (75 =? - 37.5) = false.
Proof.
  split; [apply reordered_a_wf|]. split; [apply reordered_b_wf|].
  split; [apply reordered_same_key_set|]. repeat split.
Qed.


(** The model of the comparator reproduces what the notebook printed for the
    full test set: 17.47, 8.73, 12.36 and 12.34 for PEFT over the original
    model, and -1.35, -1.70, -1.34 and -1.35 for PEFT over the instruct
    model, to two decimals. *)
Example improvement_of_peft_as_printed :
  compare FullTestSet.peft_model_results FullTestSet.original_model_results =
    Ok [ ("rouge1"%string, 17.469045759888516); ("rouge2"%string, 8.7285937586765474);
         ("rougeL"%string, 12.361553662706307); ("rougeLsum"%string, 12.343602489664773) ] /\
  compare FullTestSet.peft_model_results FullTestSet.instruct_model_results =
    Ok [ ("rouge1"%string, -1.3506599819393672); ("rouge2"%string, -1.7028226506146715);
         ("rougeL"%string, -1.3373189130737373); ("rougeLsum"%string, -1.3461517668907574) ].
Proof. split; reflexivity. Qed.

(** * The training data: which rows are kept, and what they hold *)

Local Close Scope float_scope.
Local Close Scope string_scope.
Local Open Scope nat_scope.

Lemma every_hundredth_multiple {A : Type} (example : A) (q : nat) :
  every_hundredth example (100 * q) = true.
Proof.
  unfold every_hundredth. rewrite Nat.mul_comm, Nat.Div0.mod_mul. reflexivity.
Qed.

Lemma every_hundredth_between {A : Type} (example : A) (q j : nat) :
  1 <= j <= 99 -> every_hundredth example (100 * q + j) = false.
Proof.
  intros H. unfold every_hundredth.
  rewrite Nat.add_comm, (Nat.mul_comm 100 q), Nat.Div0.mod_add, Nat.mod_small by lia.
  apply Nat.eqb_neq. lia.
Qed.

(** From an index that is [j] past a multiple of 100, the filter drops rows
    up to the next multiple. *)
Lemma filter_with_indices_skip {A : Type} (q : nat) (rows : list A) : forall j,
  1 <= j <= 100 ->
  filter_with_indices every_hundredth (100 * q + j) rows =
  filter_with_indices every_hundredth (100 * q + 100) (skipn (100 - j) rows).
Proof.
  induction rows as [|x rows IH]; intros j Hj.
  - rewrite skipn_nil. reflexivity.
  - destruct (Nat.eq_dec j 100) as [->|Hne]; [reflexivity|].
    cbn [filter_with_indices]. rewrite every_hundredth_between by lia.
    replace (S (100 * q + j)) with (100 * q + S j) by lia.
    rewrite IH by lia.
    replace (100 - j) with (S (100 - S j)) by lia. reflexivity.
Qed.

Lemma filter_with_indices_cons {A : Type} (q : nat) (x : A) (rows : list A) :
  filter_with_indices every_hundredth (100 * q) (x :: rows) =
  x :: filter_with_indices every_hundredth (100 * S q) (skipn 99 rows).
Proof.
  cbn [filter_with_indices]. rewrite every_hundredth_multiple. f_equal.
  replace (S (100 * q)) with (100 * q + 1) by lia.
  rewrite filter_with_indices_skip by lia. f_equal; lia.
Qed.

Lemma nth_error_filter_with_indices {A : Type} (k : nat) : forall (q : nat) (rows : list A),
  nth_error (filter_with_indices every_hundredth (100 * q) rows) k =
  nth_error rows (100 * k).
Proof.
  induction k as [|k IH]; intros q [|x rows].
  - reflexivity.
  - rewrite filter_with_indices_cons. reflexivity.
  - cbn [filter_with_indices]. destruct (100 * S k); reflexivity.
  - rewrite filter_with_indices_cons. cbn [nth_error].
    rewrite IH, nth_error_skipn.
    replace (100 * S k) with (S (99 + 100 * k)) by lia. reflexivity.
Qed.

Lemma length_filter_with_indices {A : Type} (n : nat) : forall (q : nat) (rows : list A),
  List.length rows <= n ->
  List.length (filter_with_indices every_hundredth (100 * q) rows) =
  (List.length rows + 99) / 100.
Proof.
  induction n as [|n IH]; intros q [|x rows] H; try reflexivity; [cbn in H; lia|].
  rewrite filter_with_indices_cons. cbn [List.length] in *.
  rewrite IH by (rewrite length_skipn; lia). rewrite length_skipn.
  destruct (Nat.le_gt_cases 99 (List.length rows)) as [L|G].
  - replace (List.length rows - 99 + 99) with (List.length rows) by lia.
    replace (S (List.length rows) + 99) with (List.length rows + 1 * 100) by lia.
    rewrite Nat.div_add by lia. lia.
  - replace (List.length rows - 99 + 99) with 99 by lia.
    rewrite (Nat.div_small 99 100) by lia.
    apply (Nat.div_unique _ 100 1 (List.length rows)); lia.
Qed.

(** X1.  The filter keeps the rows of index 0, 100, 200, ... and nothing
    else: row [k] of the result is row [100 * k] of the split, and a split
    of [n] rows keeps [(n + 99) / 100] of them. *)
Theorem filter_split_keeps_every_hundredth {A : Type} (rows : list A) :
  (forall k, nth_error (filter_split rows) k = nth_error rows (100 * k)) /\
  List.length (filter_split rows) = (List.length rows + 99) / 100.
Proof.
  split.
  - intros k. apply (nth_error_filter_with_indices k 0).
  - apply (length_filter_with_indices (List.length rows) 0). lia.
Qed.

#[local] Set Warnings "-abstract-large-number".

(** The shapes the notebook printed: 12460, 500 and 1500 rows leave 125, 5
    and 15. *)
Example filtered_shapes :
  List.length (filter_split (repeat tt 12460)) = 125 /\
  List.length (filter_split (repeat tt 500)) = 5 /\
  List.length (filter_split (repeat tt 1500)) = 15.
Proof.
  unfold filter_split. repeat split;
    rewrite (length_filter_with_indices _ 0) by apply Nat.le_refl;
    rewrite repeat_length; reflexivity.
Qed.

Lemma concat_batches_aux {A : Type} (batch_size : nat) :
  0 < batch_size ->
  forall (fuel : nat) (rows : list A),
    List.length rows <= fuel ->
    List.concat (batches_aux fuel batch_size rows) = rows.
Proof.
  intros Hb. induction fuel as [|fuel IH]; intros rows H.
  - destruct rows; [reflexivity | cbn in H; lia].
  - destruct rows as [|x rows]; [reflexivity|].
    cbn [batches_aux List.concat].
    rewrite IH by (rewrite length_skipn; cbn [List.length] in *; lia).
    apply firstn_skipn.
Qed.


Lemma tokenize_function_rows {token_ids : Type} (tokenizer : string -> token_ids)
      (example : list DialogueRecord) :
  tokenize_function tokenizer example = map (tokenize_row tokenizer) example.
Proof.
  unfold tokenize_function, TokenizeFunction.prompt.
  induction example as [|record example IH]; [reflexivity|].
  cbn [map combine]. rewrite IH. reflexivity.
Qed.



(** X3.  Each split of [tokenized_datasets] holds one example per hundred
    records: example [k] is made of the prompt and of the summary of record
    [100 * k] of that split, and a split of [n] records gives
    [(n + 99) / 100] examples. *)
Theorem tokenized_datasets_rows {token_ids : Type} (tokenizer : string -> token_ids)
        (dataset : DatasetDict DialogueRecord) :
  Forall (fun '(records, examples) =>
            (forall k, nth_error examples k =
                       option_map (tokenize_row tokenizer) (nth_error records (100 * k))) /\
            List.length examples = (List.length records + 99) / 100)
         [ (train dataset, train (tokenized_datasets tokenizer dataset));
           (validation dataset, validation (tokenized_datasets tokenizer dataset));
           (test dataset, test (tokenized_datasets tokenizer dataset)) ].
Proof.
  assert (S : forall records,
    (forall k, nth_error (tokenized_split tokenizer records) k =
               option_map (tokenize_row tokenizer) (nth_error records (100 * k))) /\
    List.length (tokenized_split tokenizer records) = (List.length records + 99) / 100).
  { intros records. unfold tokenized_split, map_batched, batches.
    rewrite (map_ext _ _ (tokenize_function_rows tokenizer)), <- concat_map.
    rewrite concat_batches_aux by lia. unfold filter_split. split.
    - intros k. rewrite (nth_error_filter_with_indices k 0). apply nth_error_map.
    - rewrite (length_filter_with_indices _ 0) by apply Nat.le_refl.
      rewrite length_map. reflexivity. }
  repeat constructor; apply S.
Qed.

(** * Counting parameters *)

Local Open Scope N_scope.

Lemma fold_left_add_from (l : list N) (a : N) :
  fold_left N.add l a = a + fold_left N.add l 0.
Proof.
  revert a. induction l as [|x l IH]; intros a; cbn [fold_left].
  - lia.
  - rewrite (IH (a + x)), (IH (0 + x)). lia.
Qed.

Lemma total_params_cons (p : ParameterTensor) (parameters : list ParameterTensor) :
  total_params (p :: parameters) = numel p + total_params parameters.
Proof. unfold total_params. cbn [map fold_left]. rewrite fold_left_add_from. lia. Qed.

Lemma trainable_params_cons (p : ParameterTensor) (parameters : list ParameterTensor) :
  trainable_params (p :: parameters) =
  (if requires_grad p then numel p else 0) + trainable_params parameters.
Proof.
  unfold trainable_params. cbn [List.filter]. destruct (requires_grad p).
  - cbn [map fold_left]. rewrite fold_left_add_from. lia.
  - lia.
Qed.

(** X4.  The trainable count never exceeds the total; it is zero exactly
    when every tensor that requires a gradient is empty, as when all of them
    are frozen; and freezing or unfreezing tensors leaves the total as it
    is. *)
Theorem trainable_params_bounds (parameters : list ParameterTensor) :
  trainable_params parameters <= total_params parameters /\
  (trainable_params parameters = 0 <->
   forall p, In p parameters -> requires_grad p = true -> numel p = 0) /\
  (forall others, map numel others = map numel parameters ->
                  total_params others = total_params parameters).
Proof.
  split; [|split].
  - induction parameters as [|p ps IH]; [reflexivity|].
    rewrite total_params_cons, trainable_params_cons.
    destruct (requires_grad p); lia.
  - induction parameters as [|p ps IH].
    + split; [intros _ p [] | reflexivity].
    + rewrite trainable_params_cons. split.
      * intros H q [<-|Hq] Hg.
        -- rewrite Hg in H. lia.
        -- apply IH; [destruct (requires_grad p); lia | exact Hq | exact Hg].
      * intros H.
        assert (T : trainable_params ps = 0)
          by (apply IH; intros q Hq; apply H; right; exact Hq).
        rewrite T. destruct (requires_grad p) eqn:Hg; [|reflexivity].
        rewrite (H p (or_introl eq_refl) Hg). reflexivity.
  - intros others H. unfold total_params. rewrite H. reflexivity.
Qed.

Local Close Scope N_scope.

(** * The model calls of the evaluation cells *)

Section ModelCalls.

Variable token_ids : Type.
Variable tokenizer : string -> token_ids.
Variable generate : model_variant -> token_ids -> result token_ids.
Variable decode : token_ids -> string.

(** One pass of the body calls the three variants in order, stopping at the
    first call that raises; the summaries are appended only when all three
    calls have returned. *)
Lemma body_without_read_calls d (st : loop_state token_ids) :
  (fst (body_without_read tokenizer generate decode d st) = Ok tt /\
   calls (snd (body_without_read tokenizer generate decode d st)) =
     rev (calls_for tokenizer d) ++ calls st /\
   forall v,
     List.length (summaries_of v (snd (body_without_read tokenizer generate decode d st))) =
     S (List.length (summaries_of v st))) \/
  (exists e j,
     fst (body_without_read tokenizer generate decode d st) = Err e /\
     1 <= j <= 3 /\
     calls (snd (body_without_read tokenizer generate decode d st)) =
       rev (firstn j (calls_for tokenizer d)) ++ calls st /\
     (exists v ids tl,
        calls (snd (body_without_read tokenizer generate decode d st)) = (v, ids) :: tl /\
        generate v ids = Err e) /\
     forall v,
       summaries_of v (snd (body_without_read tokenizer generate decode d st)) =
       summaries_of v st).
Proof.
  unfold body_without_read, bind, generate_text, append_summaries, calls_for.
  destruct (generate original_model _) as [o|e] eqn:Eo.
  2:{ right. exists e, 1. cbn. split; [reflexivity|]. split; [lia|].
      split; [reflexivity|]. split; [eauto|]. intros []; reflexivity. }
  destruct (generate instruct_model _) as [i|e] eqn:Ei.
  2:{ right. exists e, 2. cbn. split; [reflexivity|]. split; [lia|].
      split; [reflexivity|]. split; [eauto|]. intros []; reflexivity. }
  destruct (generate peft_model _) as [p|e] eqn:Ep.
  2:{ right. exists e, 3. cbn. split; [reflexivity|]. split; [lia|].
      split; [reflexivity|]. split; [eauto|]. intros []; reflexivity. }
  left. cbn. split; [reflexivity|]. split; [reflexivity|].
  intros []; cbn; rewrite length_app; cbn; lia.
Qed.

Lemma call_schedule_cons d ds :
  call_schedule tokenizer (d :: ds) = calls_for tokenizer d ++ call_schedule tokenizer ds.
Proof. reflexivity. Qed.

Lemma for_each_without_read_calls ds : forall st : loop_state token_ids,
  exists j n,
    calls (snd (for_each_without_read tokenizer generate decode ds st)) =
      rev (firstn j (call_schedule tokenizer ds)) ++ calls st /\
    (forall v,
       List.length (summaries_of v (snd (for_each_without_read tokenizer generate decode ds st))) =
       n + List.length (summaries_of v st)) /\
    3 * n <= j <= 3 * n + 3 /\
    j <= 3 * List.length ds /\
    match fst (for_each_without_read tokenizer generate decode ds st) with
    | Ok _ => j = 3 * List.length ds /\ n = List.length ds
    | Err e =>
        exists v ids tl,
          calls (snd (for_each_without_read tokenizer generate decode ds st)) = (v, ids) :: tl /\
          generate v ids = Err e
    end.
Proof.
  induction ds as [|d rest IH]; intros st.
  - exists 0, 0. cbn. repeat split; lia.
  - cbn [for_each_without_read]. unfold bind. rewrite call_schedule_cons.
    destruct (body_without_read_calls d st)
      as [(Hr & Hc & Hs) | (e & j & Hr & Hj & Hc & Hlast & Hs)];
      destruct (body_without_read tokenizer generate decode d st) as [r st'];
      cbn [fst snd] in *; subst r.
    + destruct (IH st') as (j' & n' & Hc' & Hs' & Hb & Hle & Hres).
      exists (3 + j'), (S n').
      change 3 with (List.length (calls_for tokenizer d)) at 1.
      rewrite firstn_app_2, rev_app_distr, <- app_assoc, <- Hc.
      split; [exact Hc'|]. split; [intros v; rewrite Hs', Hs; lia|].
      split; [lia|]. split; [cbn [List.length]; lia|].
      destruct (fst (for_each_without_read tokenizer generate decode rest st'));
        [cbn [List.length]; lia | exact Hres].
    + exists j, 0.
      rewrite firstn_app.
      replace (j - List.length (calls_for tokenizer d)) with 0
        by (change (List.length (calls_for tokenizer d)) with 3; lia).
      cbn [firstn]. rewrite app_nil_r.
      split; [exact Hc|]. split; [intros v; rewrite Hs; reflexivity|].
      split; [lia|]. split; [cbn [List.length]; lia|]. exact Hlast.
Qed.

(** X5.  Whatever the outcome of the loop, the calls it has made are an
    initial part of the schedule: the three variants in the order original,
    instruct, PEFT, dialogue after dialogue, all three on the same
    [input_ids] for a dialogue.  The three lists have one common length [n],
    with between [3 * n] and [3 * n + 3] calls made; and when the loop
    finishes every variant has been called exactly once per dialogue. *)
Theorem loop_calls_follow_schedule (ns : namespace) (human ds : list string) :
  exists j n,
    calls (snd (run_loop tokenizer generate decode ns human ds)) =
      rev (firstn j (call_schedule tokenizer ds)) /\
    (forall v,
       List.length (summaries_of v (snd (run_loop tokenizer generate decode ns human ds))) = n) /\
    3 * n <= j <= 3 * n + 3 /\
    j <= 3 * List.length ds /\
    (fst (run_loop tokenizer generate decode ns human ds) = Ok tt ->
     j = 3 * List.length ds /\ n = List.length ds).
Proof.
  unfold run_loop. rewrite for_each_read.
  assert (Stop : forall r : result unit,
    (r = Ok tt -> ds = []) ->
    exists j n,
      calls (snd (r, @initial_state token_ids)) = rev (firstn j (call_schedule tokenizer ds)) /\
      (forall v, List.length (summaries_of v (snd (r, @initial_state token_ids))) = n) /\
      3 * n <= j <= 3 * n + 3 /\ j <= 3 * List.length ds /\
      (fst (r, @initial_state token_ids) = Ok tt -> j = 3 * List.length ds /\ n = List.length ds)).
  { intros r Hr. exists 0, 0. cbn [fst snd firstn rev]. split; [reflexivity|].
    split; [intros []; reflexivity|]. split; [lia|]. split; [lia|].
    intros H. rewrite (Hr H). split; reflexivity. }
  destruct ds as [|d rest] eqn:Eds; [apply Stop; auto|]. rewrite <- Eds in *.
  destruct (load_name ns "idx") as [v|e]; [|apply Stop; discriminate].
  destruct (getitem human v) as [h|e]; [|apply Stop; discriminate].
  destruct (for_each_without_read_calls ds initial_state)
    as (j & n & Hc & Hs & Hb & Hle & Hres).
  exists j, n. rewrite Hc. cbn [calls initial_state]. rewrite app_nil_r.
  split; [reflexivity|].
  split; [intros w; rewrite Hs; destruct w; cbn; lia|].
  split; [exact Hb|]. split; [exact Hle|].
  intros H. rewrite H in Hres. exact Hres.
Qed.

(** X6.  An exception the loop raises is either that of the read of
    [human_baseline_summaries[idx]], raised before any model was called, or
    that of the latest model call: no call follows one that raised, and the
    exception reaches the caller as it was raised. *)
Theorem loop_error_provenance (ns : namespace) (human ds : list string) :
  match fst (run_loop tokenizer generate decode ns human ds) with
  | Ok _ =>
      List.length (calls (snd (run_loop tokenizer generate decode ns human ds))) =
      3 * List.length ds
  | Err e =>
      (calls (snd (run_loop tokenizer generate decode ns human ds)) = [] /\
       (load_name ns "idx" = Err e \/
        exists v, load_name ns "idx" = Ok v /\ getitem human v = Err e)) \/
      (exists v ids tl,
         calls (snd (run_loop tokenizer generate decode ns human ds)) = (v, ids) :: tl /\
         generate v ids = Err e)
  end.
Proof.
  unfold run_loop. rewrite for_each_read.
  destruct ds as [|d rest] eqn:Eds; [reflexivity|]. rewrite <- Eds in *.
  destruct (load_name ns "idx") as [v|e]; [|left; split; [reflexivity | left; reflexivity]].
  destruct (getitem human v) as [h|e] eqn:Eg;
    [|left; split; [reflexivity | right; exists v; split; [reflexivity | exact Eg]]].
  destruct (for_each_without_read_calls ds initial_state)
    as (j & n & Hc & Hs & Hb & Hle & Hres).
  destruct (fst (for_each_without_read tokenizer generate decode ds initial_state)) as [[]|e].
  - destruct Hres as [-> _]. rewrite Hc. cbn [calls initial_state].
    rewrite app_nil_r, length_rev, length_firstn.
    assert (L : forall l, List.length (call_schedule tokenizer l) = 3 * List.length l).
    { induction l as [|x l IHl]; [reflexivity|].
      rewrite call_schedule_cons, length_app, IHl. unfold calls_for. cbn [List.length]. lia. }
    rewrite L. lia.
  - right. exact Hres.
Qed.


(** X8.  The qualitative cell reads record 200 of the test split: with 200
    records or fewer it raises [IndexError] before any model is called.
    Otherwise it makes the calls the loop schedules for that record's
    dialogue, up to the first that raises; when all three return, what it
    shows is the summary of that same record and, for each variant, the
    summary the loop would append for that dialogue. *)
Theorem qualitative_cell_reads_record_200 (test : list DialogueRecord)
        (st : loop_state token_ids) :
  match nth_error test 200 with
  | None => qualitative_cell tokenizer generate decode test st = (Err IndexError, st)
  | Some record =>
      (exists j, 1 <= j <= 3 /\
         calls (snd (qualitative_cell tokenizer generate decode test st)) =
         rev (firstn j (calls_for tokenizer (dialogue record))) ++ calls st) /\
      match fst (qualitative_cell tokenizer generate decode test st) with
      | Ok (human_baseline_summary, o, i, p) =>
          human_baseline_summary = summary record /\
          summary_from tokenizer generate decode original_model (dialogue record) o /\
          summary_from tokenizer generate decode instruct_model (dialogue record) i /\
          summary_from tokenizer generate decode peft_model (dialogue record) p /\
          calls (snd (qualitative_cell tokenizer generate decode test st)) =
            rev (calls_for tokenizer (dialogue record)) ++ calls st
      | Err e =>
          exists v ids tl,
            calls (snd (qualitative_cell tokenizer generate decode test st)) = (v, ids) :: tl /\
            generate v ids = Err e
      end
  end /\
  (forall v, summaries_of v (snd (qualitative_cell tokenizer generate decode test st)) =
             summaries_of v st).
Proof.
  unfold qualitative_cell, bind, lift, ret, index, getitem, generate_text, summary_from,
    calls_for.
  change (200 <? 0)%Z with false. cbn match.
  destruct (Z.ltb_spec 200 (Z.of_nat (List.length test))) as [H|H]; cbn [andb Z.leb Z.compare].
  - change (Z.to_nat 200) with 200.
    destruct (nth_error test 200) as [record|] eqn:E;
      [|apply nth_error_None in E; lia].
    change (Qualitative.prompt (dialogue record))
      with (Quantitative.prompt (dialogue record)).
    destruct (generate original_model _) as [o|e] eqn:Eo;
      [|cbn; split; [split; [exists 1; split; [lia | reflexivity] | eauto]
                    | intros []; reflexivity]].
    destruct (generate instruct_model _) as [i|e] eqn:Ei;
      [|cbn; split; [split; [exists 2; split; [lia | reflexivity] | eauto]
                    | intros []; reflexivity]].
    destruct (generate peft_model _) as [p|e] eqn:Ep;
      [|cbn; split; [split; [exists 3; split; [lia | reflexivity] | eauto]
                    | intros []; reflexivity]].
    cbn. split; [|intros []; reflexivity].
    split; [exists 3; split; [lia | reflexivity]|].
    repeat split; eauto.
  - destruct (nth_error test 200) as [record|] eqn:E.
    + assert (200 < List.length test)%nat by (apply nth_error_Some; congruence). lia.
    + split; [reflexivity | intros []; reflexivity].
Qed.

End ModelCalls.

(** A stand-in for the models whose PEFT variant raises. *)
Example echo_run_peft_raises :
  run_loop (fun prompt => prompt)
           (fun v input_ids =>
              match v with
              | peft_model => Err ValueError
              | _ => echo_generate v input_ids
              end)
           (fun outputs => outputs)
           (with_idx (PyInt (-1)))
           (human_baseline_summaries_of two_records) (dialogues_of two_records) =
  (Err ValueError,
   {| original_model_summaries := [];
      instruct_model_summaries := [];
      peft_model_summaries := [];
      calls :=
        [ (peft_model, Quantitative.prompt "#Person1#: Hi.");
          (instruct_model, Quantitative.prompt "#Person1#: Hi.");
          (original_model, Quantitative.prompt "#Person1#: Hi.") ] |}).
Proof. reflexivity. Qed.

(** * Scoring the stored results *)


(** * More on the comparator *)

Local Open Scope Z_scope.

Lemma SFcompare_score_antisym X Y :
  score_repr X -> score_repr Y ->
  SFcompare X Y = option_map CompOpp (SFcompare Y X).
Proof.
  intros [sx|mx ex Hx] [sy|my ey Hy]; try reflexivity.
  cbn [SFcompare option_map]. f_equal.
  rewrite (Z.compare_antisym ex ey).
  destruct (ex ?= ey); cbn [CompOpp]; try reflexivity.
  rewrite Pos.compare_cont_antisym. reflexivity.
Qed.

(** The delta compares with zero as the first score compares with the
    second. *)
Lemma SF_delta_compare X Y :
  score_repr X -> score_repr Y ->
  SFcompare (SF64mul (SF64sub X Y) SF100) (S754_zero false) = SFcompare X Y.
Proof.
  intros HX HY. rewrite (SFcompare_score_antisym X Y HX HY).
  destruct (SF64sub_score X Y HX HY) as [(C & (s & E) & _) | (s & C & N & _)];
    rewrite C.
  - rewrite E. reflexivity.
  - destruct (mul_SF100_nonzero s _ N) as [m e He|]; destruct s; reflexivity.
Qed.

Local Close Scope Z_scope.
Local Open Scope float_scope.

Lemma delta_compare x y :
  valid_score x = true -> valid_score y = true ->
  ((x - y) * 100 =? 0) = (x =? y) /\ ((x - y) * 100 <? 0) = (x <? y).
Proof.
  intros Hx Hy. rewrite !eqb_spec, !ltb_spec, mul_spec, sub_spec, Prim2SF_100.
  change (Prim2SF 0) with (S754_zero false).
  unfold SFeqb, SFltb.
  rewrite SF_delta_compare by (apply valid_score_repr; assumption).
  split; reflexivity.
Qed.

Lemma keys_combine_prefix (ks : list string) (f : float -> float) (vs : list float) :
  map fst (map (fun '(key, value) => (key, f value)) (combine ks vs)) =
  firstn (List.length (combine ks vs)) ks.
Proof.
  revert vs. induction ks as [|k ks IH]; intros [|v vs]; cbn; try reflexivity.
  f_equal. apply IH.
Qed.

Lemma combine_map_values (a : ScoreSet) (f : float -> float) :
  map (fun '(key, value) => (key, value * 100)) (combine (keys a) (map f (values a))) =
  map (fun '(key, x) => (key, f x * 100)) a.
Proof.
  unfold keys, values. induction a as [|[k x] a IH]; cbn [map combine fst snd];
    [reflexivity | rewrite IH; reflexivity].
Qed.

Lemma np_subtract_single (xs : list float) (y : float) :
  np_subtract xs [ y ] = Ok (map (fun x => x - y) xs).
Proof. destruct xs as [|x [|x' xs]]; reflexivity. Qed.

(** X10.  NumPy broadcasting shows through: against a score set of a
    single metric, every metric of [a] is compared with that one value,
    whatever its name; a score set of a single metric compared with a longer
    one is compared with its first value alone, the others being dropped;
    and compared with an empty one it yields no delta at all. *)
Theorem compare_broadcasts_single (a : ScoreSet) (key key' : string) (x y : float)
        (b : ScoreSet) :
  compare a [ (key', y) ] = Ok (map (fun '(k, v) => (k, (v - y) * 100)) a) /\
  compare [ (key, x) ] ((key', y) :: b) = Ok [ (key, (x - y) * 100) ] /\
  compare [ (key, x) ] [] = Ok [].
Proof.
  split; [|split].
  - unfold compare, improvement. cbn [values map snd].
    fold (values a). rewrite np_subtract_single.
    f_equal. apply (combine_map_values a (fun v => v - y)).
  - destruct b as [|[k2 y2] b]; reflexivity.
  - reflexivity.
Qed.

(** X11.  Whenever [compare] returns, the names it reports are the first
    names of [a], in the order of [a]: it reports no metric twice over, none
    that [a] lacks, and no more deltas than [a] has metrics. *)
Theorem compare_reports_keys_of_a (a b : ScoreSet) (r : list (string * float)) :
  compare a b = Ok r ->
  keys r = firstn (List.length r) (keys a) /\
  (List.length r <= List.length a)%nat.
Proof.
  unfold compare. destruct (improvement a b) as [imp|e]; [|discriminate].
  intros [= <-]. unfold keys at 1.
  rewrite (keys_combine_prefix (keys a) (fun value => value * 100) imp).
  rewrite length_map. split; [reflexivity|].
  rewrite length_combine. unfold keys. rewrite length_map. apply Nat.le_min_l.
Qed.

(** The theorem on a score set of four metrics against one of a single
    metric. *)
Lemma compare_reports_keys_of_a_witness :
  exists r,
    compare TenRows.original_model_results only_rouge2 = Ok r /\
    keys r = firstn (List.length r) (keys TenRows.original_model_results) /\
    (List.length r <= List.length TenRows.original_model_results)%nat.
Proof.
  eexists. split; [reflexivity|].
  apply (compare_reports_keys_of_a TenRows.original_model_results only_rouge2).
  reflexivity.
Defined.

(** X12.  For score sets of valid scores with their keys in one order, a
    delta is zero exactly when the two scores are equal, and negative
    exactly when the first score is the smaller: rounding never turns a
    difference into zero, nor a zero into a difference. *)
Theorem compare_delta_zero_or_negative (a b : ScoreSet) :
  keys a = keys b ->
  valid_scores a = true ->
  valid_scores b = true ->
  exists r,
    compare a b = Ok r /\
    forall k, In k (keys a) ->
      exists x y d,
        get a k = Some x /\ get b k = Some y /\ get r k = Some d /\
        (d =? 0) = (x =? y) /\
        (d <? 0) = (x <? y).
Proof.
  intros Hk Ha Hb. exists (deltas a b).
  split; [apply compare_same_length, keys_length, Hk|].
  intros k Hin.
  destruct (get_In a k Hin) as (x & Hx & Vx).
  rewrite Hk in Hin. destruct (get_In b k Hin) as (y & Hy & Vy).
  exists x, y, ((x - y) * 100). rewrite get_deltas, Hx, Hy by exact Hk.
  split; [reflexivity|]. split; [reflexivity|]. split; [reflexivity|].
  apply delta_compare; [exact (valid_scores_In a x Ha Vx) | exact (valid_scores_In b y Hb Vy)].
Qed.

(** The theorem on the PEFT and original scores of the full test set. *)
Lemma compare_delta_zero_or_negative_witness :
  exists r,
    compare FullTestSet.peft_model_results FullTestSet.original_model_results = Ok r /\
    forall k, In k (keys FullTestSet.peft_model_results) ->
      exists x y d,
        get FullTestSet.peft_model_results k = Some x /\
        get FullTestSet.original_model_results k = Some y /\
        get r k = Some d /\
        (d =? 0) = (x =? y) /\
        (d <? 0) = (x <? y).
Proof.
  apply (compare_delta_zero_or_negative FullTestSet.peft_model_results
                                        FullTestSet.original_model_results);
    reflexivity.
Defined.

(** * The range of a delta

    Rounding to nearest never carries a value past a float that bounds it:
    the difference of two scores stays within [-1, 1], and a hundred times
    it within [-100, 100]. *)

Local Close Scope float_scope.
Local Open Scope Z_scope.

Lemma shr_1_shifted r0 : 0 <= shr_m r0 -> shifted 1 r0 (shr_1 r0).
Proof.
  destruct r0 as [m r s]. cbn [shr_m]. intros Hm. unfold shifted.
  destruct m as [|[p|p|]|p]; cbn [shr_1 shr_m shr_r shr_s]; try lia.
  - split; [lia|]. exists 0. change (2 ^ 1) with 2. repeat split; try lia; tauto.
  - split; [lia|]. exists 1. change (2 ^ 1) with 2. repeat split; try lia;
      cbn; intros; try discriminate; lia.
  - split; [lia|]. exists 0. change (2 ^ 1) with 2. repeat split; try lia; tauto.
  - split; [lia|]. exists 1. change (2 ^ 1) with 2. repeat split; try lia;
      cbn; intros; try discriminate; lia.
Qed.

Lemma shifted_trans p q r0 r1 r2 :
  0 <= p -> 0 <= q -> shifted p r0 r1 -> shifted q r1 r2 -> shifted (p + q) r0 r2.
Proof.
  intros Hp Hq (H1 & rho1 & E1 & B1 & X1) (H2 & rho2 & E2 & B2 & X2).
  split; [exact H2|]. exists (rho2 * 2 ^ p + rho1).
  rewrite Z.pow_add_r by lia.
  assert (P : 0 < 2 ^ p) by (apply Z.pow_pos_nonneg; lia).
  assert (Q : 0 < 2 ^ q) by (apply Z.pow_pos_nonneg; lia).
  split; [rewrite E1, E2; ring|]. split; [nia|].
  rewrite X2, X1. split.
  - intros (-> & -> & H). split; [lia | exact H].
  - intros (H & H'). assert (rho2 = 0) by nia. assert (rho1 = 0) by nia. tauto.
Qed.

Lemma iter_shr_1_shifted p : forall r0,
  0 <= shr_m r0 -> shifted (Z.pos p) r0 (iter_pos shr_1 p r0).
Proof.
  induction p as [p IH|p IH|]; intros r0 H0; cbn [iter_pos].
  - pose proof (shr_1_shifted r0 H0) as S1.
    pose proof (IH _ (proj1 S1)) as S2.
    pose proof (IH _ (proj1 S2)) as S3.
    replace (Z.pos p~1) with (1 + Z.pos p + Z.pos p) by lia.
    eapply shifted_trans; [lia | lia | | exact S3].
    eapply shifted_trans; [lia | lia | exact S1 | exact S2].
  - pose proof (IH _ H0) as S2.
    pose proof (IH _ (proj1 S2)) as S3.
    replace (Z.pos p~0) with (Z.pos p + Z.pos p) by lia.
    eapply shifted_trans; [lia | lia | exact S2 | exact S3].
  - apply shr_1_shifted, H0.
Qed.

(** Rounding the quotient to nearest never passes an integer bound on the
    value that was shifted. *)
Lemma round_shifted_le p m r K :
  0 <= p ->
  shifted p (Build_shr_record m false false) r ->
  m <= K * 2 ^ p ->
  shr_m r <= round_nearest_even (shr_m r) (loc_of_shr_record r) <= K.
Proof.
  intros Hp (Hq & rho & E & B & X) HK. cbn [shr_m shr_r shr_s orb] in *.
  assert (P : 0 < 2 ^ p) by (apply Z.pow_pos_nonneg; lia).
  destruct r as [q r s]. cbn [shr_m shr_r shr_s] in *.
  assert (QK : q <= K) by nia.
  assert (QK' : rho <> 0 -> q + 1 <= K) by nia.
  destruct r, s; cbn [loc_of_shr_record round_nearest_even orb] in *.
  - assert (rho <> 0) by (intros ->; destruct X as [_ X]; discriminate X; auto). lia.
  - assert (rho <> 0) by (intros ->; destruct X as [_ X]; discriminate X; auto).
    destruct (Z.even q); lia.
  - assert (rho <> 0) by (intros ->; destruct X as [_ X]; discriminate X; auto). lia.
  - lia.
Qed.

Lemma fexp_value z : fexp z = Z.max (z - 53) (-1074).
Proof. reflexivity. Qed.

Lemma fexp_mono a b : a <= b -> fexp a <= fexp b.
Proof. unfold SpecFloat.fexp. lia. Qed.

Lemma bounded_fexp m e :
  bounded prec emax m e = true ->
  fexp (Z.pos (digits2_pos m) + e) = e /\ e <= emax - prec.
Proof.
  unfold bounded, canonical_mantissa. rewrite andb_true_iff, Z.eqb_eq, Z.leb_le. tauto.
Qed.

Lemma scaled_digits (m b : positive) (e eb : Z) :
  -1120 <= e -> -1120 <= eb ->
  scaled (Z.pos m) e <= scaled (Z.pos b) eb ->
  Z.pos (digits2_pos m) + e <= Z.pos (digits2_pos b) + eb.
Proof.
  unfold scaled. intros He Hb H.
  pose proof (digits2_pos_bounds m) as [Lm _].
  pose proof (digits2_pos_bounds b) as [_ Ub].
  assert (P : 0 < 2 ^ (e + 1120)) by (apply Z.pow_pos_nonneg; lia).
  assert (Q : 0 < 2 ^ (eb + 1120)) by (apply Z.pow_pos_nonneg; lia).
  assert (L : 2 ^ (Z.pos (digits2_pos m) - 1 + (e + 1120)) <= Z.pos m * 2 ^ (e + 1120)).
  { rewrite (Z.pow_add_r 2 (Z.pos (digits2_pos m) - 1) (e + 1120)) by lia. nia. }
  assert (U : Z.pos b * 2 ^ (eb + 1120) < 2 ^ (Z.pos (digits2_pos b) + (eb + 1120))).
  { rewrite (Z.pow_add_r 2 (Z.pos (digits2_pos b)) (eb + 1120)) by lia. nia. }
  assert (X : 2 ^ (Z.pos (digits2_pos m) - 1 + (e + 1120)) <
              2 ^ (Z.pos (digits2_pos b) + (eb + 1120))) by lia.
  apply Z.pow_lt_mono_r_iff in X; lia.
Qed.

Lemma shifted_refl r : 0 <= shr_m r -> shifted 0 r r.
Proof.
  intros H. split; [exact H|]. exists 0. change (2 ^ 0) with 1.
  repeat split; try lia; tauto.
Qed.

Lemma shr_fexp_shifted m e l :
  0 <= fexp (Z.pos (digits2_pos m) + e) - e ->
  snd (shr_fexp prec emax (Z.pos m) e l) = fexp (Z.pos (digits2_pos m) + e) /\
  shifted (fexp (Z.pos (digits2_pos m) + e) - e)
          (shr_record_of_loc (Z.pos m) l) (fst (shr_fexp prec emax (Z.pos m) e l)) /\
  Zdigits2 (shr_m (fst (shr_fexp prec emax (Z.pos m) e l))) =
    Z.max 0 (Z.pos (digits2_pos m) - (fexp (Z.pos (digits2_pos m) + e) - e)).
Proof.
  intros Hn. unfold shr_fexp, shr. cbn [Zdigits2].
  assert (H0 : 0 <= shr_m (shr_record_of_loc (Z.pos m) l))
    by (rewrite shr_record_of_loc_m; lia).
  destruct (fexp (Z.pos (digits2_pos m) + e) - e) as [|n|n] eqn:En; cbn [fst snd]; try lia.
  - split; [lia|]. split; [apply shifted_refl, H0|].
    rewrite shr_record_of_loc_m. cbn [Zdigits2]. lia.
  - split; [lia|]. split; [apply iter_shr_1_shifted, H0|].
    destruct (iter_shr_1_digits n _ H0) as [_ E]. rewrite E, shr_record_of_loc_m.
    reflexivity.
Qed.

(** Rounding a positive value that a canonical float bounds from above
    gives a canonical finite float, still under that bound. *)
Lemma round_aux_le s m e b eb :
  -1120 <= e ->
  emin < Z.pos (digits2_pos m) + e ->
  0 <= fexp (Z.pos (digits2_pos m) + e) - e ->
  bounded prec emax b eb = true ->
  scaled (Z.pos m) e <= scaled (Z.pos b) eb ->
  exists m' e',
    round_aux s (Z.pos m) e loc_Exact = S754_finite s m' e' /\
    bounded prec emax m' e' = true /\
    scaled (Z.pos m') e' <= scaled (Z.pos b) eb.
Proof.
  intros He Hmin Hn Hb Hle.
  destruct (bounded_fexp _ _ Hb) as [Cb Eb].
  assert (Hebmin : -1074 <= eb) by (rewrite <- Cb, fexp_value; lia).
  rewrite emin_value in Hmin.
  set (d := Z.pos (digits2_pos m)) in *.
  unfold binary_round_aux.
  destruct (shr_fexp_shifted m e loc_Exact Hn) as (E1 & S1 & D1). fold d in E1, S1, D1.
  destruct (shr_fexp prec emax (Z.pos m) e loc_Exact) as [r1 e1]. cbn [fst snd] in *.
  set (n := fexp (d + e) - e) in *.
  assert (Hnd : n < d) by (unfold n; rewrite fexp_value; lia).
  assert (He1 : -1074 <= e1) by (rewrite E1, fexp_value; lia).
  assert (He1b : e1 <= eb).
  { rewrite E1, <- Cb. apply fexp_mono. apply (scaled_digits m b e eb); lia. }
  (* the first quotient is positive *)
  pose proof (proj1 S1) as Hq0.
  destruct (shr_m r1) as [|q|q] eqn:Eq; cbn [Zdigits2] in D1; try lia.
  (* an integer bound at the exponent of the quotient *)
  set (K := Z.pos b * 2 ^ (eb - e1)).
  assert (HK : Z.pos m <= K * 2 ^ n).
  { unfold scaled in Hle.
    assert (P : 0 < 2 ^ (e + 1120)) by (apply Z.pow_pos_nonneg; lia).
    apply (Z.mul_le_mono_pos_r _ _ (2 ^ (e + 1120)) P).
    unfold K. rewrite <- !Z.mul_assoc, <- !Z.pow_add_r by lia.
    replace (eb - e1 + (n + (e + 1120))) with (eb + 1120) by (unfold n; lia).
    exact Hle. }
  pose proof (round_shifted_le n (Z.pos m) r1 K Hn S1 HK) as [Rl Ru].
  rewrite Eq in Rl, Ru.
  destruct (round_nearest_even (Z.pos q) (loc_of_shr_record r1)) as [|q'|q'] eqn:Er;
    try lia.
  (* the second alignment *)
  assert (Dq' : d - n <= Z.pos (digits2_pos q')).
  { replace (d - n) with (Z.pos (digits2_pos q)) by lia. apply digits2_pos_le. lia. }
  assert (Hn1 : 0 <= fexp (Z.pos (digits2_pos q') + e1) - e1).
  { assert (fexp (d + e) <= fexp (Z.pos (digits2_pos q') + e1))
      by (apply fexp_mono; unfold n in *; lia). lia. }
  destruct (shr_fexp_shifted q' e1 loc_Exact Hn1) as (E2 & S2 & D2).
  destruct (shr_fexp prec emax (Z.pos q') e1 loc_Exact) as [r2 e2]. cbn [fst snd] in *.
  set (d' := Z.pos (digits2_pos q')) in *.
  set (n1 := fexp (d' + e1) - e1) in *.
  assert (Hn1d : n1 < d') by (unfold n1; rewrite fexp_value; lia).
  pose proof (proj1 S2) as Hq2.
  destruct S2 as (_ & rho & ES & BS & _). cbn [shr_m shr_record_of_loc] in ES.
  destruct (shr_m r2) as [|m2|m2] eqn:Em2; cbn [Zdigits2] in D2; try lia.
  assert (V2 : scaled (Z.pos m2) e2 <= scaled (Z.pos b) eb).
  { unfold scaled.
    assert (P : 0 < 2 ^ (e1 + 1120)) by (apply Z.pow_pos_nonneg; lia).
    assert (P1 : 0 < 2 ^ n1) by (apply Z.pow_pos_nonneg; lia).
    replace (e2 + 1120) with (n1 + (e1 + 1120)) by (unfold n1; lia).
    replace (eb + 1120) with (eb - e1 + (e1 + 1120)) by lia.
    rewrite (Z.pow_add_r 2 n1 (e1 + 1120)), (Z.pow_add_r 2 (eb - e1) (e1 + 1120)) by lia.
    rewrite !Z.mul_assoc. apply Z.mul_le_mono_nonneg_r; [lia|].
    fold K. lia. }
  assert (C2 : fexp (Z.pos (digits2_pos m2) + e2) = e2).
  { rewrite E2. f_equal. unfold n1 in *. lia. }
  assert (He2 : e2 <= eb).
  { rewrite <- C2, <- Cb. apply fexp_mono. apply (scaled_digits m2 b e2 eb); lia. }
  exists m2, e2.
  destruct (Z.leb_spec e2 (emax - prec)) as [L|L]; [|lia].
  split; [reflexivity|]. split; [|exact V2].
  unfold bounded, canonical_mantissa. rewrite C2, Z.eqb_refl. cbn [andb].
  apply Z.leb_le, L.
Qed.

Lemma digits2_pos_shift (k m : positive) :
  Z.pos (digits2_pos (Pos.iter xO m k)) = Z.pos (digits2_pos m) + Z.pos k.
Proof.
  revert m. induction k as [k IH|k IH|]; intros m; cbn [Pos.iter digits2_pos].
  - rewrite Pos2Z.inj_succ, !IH. lia.
  - rewrite !IH. lia.
  - lia.
Qed.

Lemma binary_round_le s m e b eb :
  -1074 <= e ->
  bounded prec emax b eb = true ->
  scaled (Z.pos m) e <= scaled (Z.pos b) eb ->
  exists m' e',
    binary_round prec emax s m e = S754_finite s m' e' /\
    bounded prec emax m' e' = true /\
    scaled (Z.pos m') e' <= scaled (Z.pos b) eb.
Proof.
  intros He Hb Hle. unfold binary_round, shl_align.
  set (d := Z.pos (digits2_pos m)).
  pose proof (fexp_value (d + e)) as F.
  destruct (fexp (d + e) - e) as [|k|k] eqn:Ek.
  - apply round_aux_le; fold d; rewrite ?emin_value; first [lia | assumption].
  - apply round_aux_le; fold d; rewrite ?emin_value; first [lia | assumption].
  - assert (Fk : fexp (d + e) = e - Z.pos k) by lia.
    apply round_aux_le; rewrite ?digits2_pos_shift; fold d;
      replace (d + Z.pos k + fexp (d + e)) with (d + e) by lia;
      rewrite ?emin_value; try lia; [exact Hb|].
    unfold scaled in *. rewrite shift_left_value, Fk.
    rewrite <- Z.mul_assoc, <- Z.pow_add_r by lia.
    replace (Z.pos k + (e - Z.pos k + 1120)) with (e + 1120) by lia. exact Hle.
Qed.

Lemma scaled_shift (m : positive) (e z : Z) :
  -1120 <= z -> z <= e ->
  scaled (Z.pos m) e = Z.pos m * 2 ^ (e - z) * 2 ^ (z + 1120).
Proof.
  intros Hz He. unfold scaled. rewrite <- Z.mul_assoc, <- Z.pow_add_r by lia.
  f_equal. f_equal. lia.
Qed.

Lemma SFcompare_scaled mx ex my ey :
  bounded prec emax mx ex = true ->
  bounded prec emax my ey = true ->
  SFcompare (S754_finite false mx ex) (S754_finite false my ey) =
  Some (scaled (Z.pos mx) ex ?= scaled (Z.pos my) ey).
Proof.
  intros Hx Hy. rewrite (SFcompare_aligned _ _ _ _ Hx Hy). f_equal.
  destruct (bounded_cases _ _ Hx) as (Ex & _).
  destruct (bounded_cases _ _ Hy) as (Ey & _).
  rewrite emin_value in *.
  rewrite (scaled_shift mx ex (Z.min ex ey)), (scaled_shift my ey (Z.min ex ey)) by lia.
  apply Zmult_compare_compat_r. apply Z.lt_gt, Z.pow_pos_nonneg; lia.
Qed.

Lemma SF64sub_under b eb X Y :
  bounded prec emax b eb = true ->
  score_repr X -> score_repr Y ->
  under b eb X -> under b eb Y ->
  under b eb (SF64sub X Y).
Proof.
  intros Hb [sx|mx ex Hx] [sy|my ey Hy] UX UY.
  - destruct sx, sy; exact I.
  - exact UY.
  - exact UX.
  - rewrite SF64sub_finite.
    destruct (bounded_cases _ _ Hx) as (Ex & _).
    destruct (bounded_cases _ _ Hy) as (Ey & _).
    rewrite emin_value in *.
    destruct UX as [_ UX]. destruct UY as [_ UY].
    rewrite (scaled_shift mx ex (Z.min ex ey)) in UX by lia.
    rewrite (scaled_shift my ey (Z.min ex ey)) in UY by lia.
    set (ez := Z.min ex ey) in *.
    set (ax := Z.pos mx * 2 ^ (ex - ez)) in *.
    set (ay := Z.pos my * 2 ^ (ey - ez)) in *.
    assert (P : 0 < 2 ^ (ez + 1120)) by (apply Z.pow_pos_nonneg; unfold ez; lia).
    assert (Pax : 0 < ax) by (apply Z.mul_pos_pos; [lia | apply Z.pow_pos_nonneg; unfold ez; lia]).
    assert (Pay : 0 < ay) by (apply Z.mul_pos_pos; [lia | apply Z.pow_pos_nonneg; unfold ez; lia]).
    destruct (ax - ay) as [|dd|dd] eqn:Ed; cbn [binary_normalize].
    + exact I.
    + destruct (binary_round_le false dd ez b eb) as (m' & e' & E & B & V);
        [unfold ez; lia | exact Hb | | rewrite E; split; assumption].
      unfold scaled at 1. nia.
    + destruct (binary_round_le true dd ez b eb) as (m' & e' & E & B & V);
        [unfold ez; lia | exact Hb | | rewrite E; split; assumption].
      unfold scaled at 1. nia.
Qed.

Lemma SF64mul_100_under R :
  under 4503599627370496 (-52) R ->
  under 7036874417766400 (-46) (SF64mul R SF100).
Proof.
  destruct R as [s|s| |s m e]; try contradiction; [intros _; exact I|].
  intros [B V]. unfold SF64mul, SF100. cbn [SFmul].
  destruct (bounded_cases _ _ B) as (Ee & _). rewrite emin_value in Ee.
  assert (D : 53 <= Z.pos (digits2_pos (m * 7036874417766400))).
  { change 53 with (Z.pos (digits2_pos 7036874417766400)). apply digits2_pos_le. nia. }
  destruct (round_aux_le (xorb s false) (m * 7036874417766400) (e + -46)
                         7036874417766400 (-46)) as (m' & e' & E & B' & V');
    rewrite ?emin_value, ?fexp_value; try lia; [reflexivity | | rewrite E; split; assumption].
  unfold scaled in *. change (-52 + 1120) with 1068 in V. change (-46 + 1120) with 1074.
  replace (e + -46 + 1120) with (e + 1074) by lia.
  replace (e + 1120) with (e + 1074 + 46) in V by lia.
  rewrite Z.pow_add_r in V by lia.
  assert (P46 : 0 < 2 ^ 46) by reflexivity.
  assert (V1 : Z.pos m * 2 ^ (e + 1074) <= 2 ^ 1074).
  { apply (Z.mul_le_mono_pos_r _ _ (2 ^ 46) P46).
    rewrite <- Z.mul_assoc. etransitivity; [exact V|]. apply Z.eq_le_incl. reflexivity. }
  rewrite Pos2Z.inj_mul, (Z.mul_comm (Z.pos m)), <- Z.mul_assoc.
  apply Z.mul_le_mono_nonneg_l; [lia | exact V1].
Qed.

Lemma under_SFleb b eb T :
  bounded prec emax b eb = true ->
  under b eb T ->
  SFleb T (S754_finite false b eb) = true /\ SFleb (S754_finite true b eb) T = true.
Proof.
  intros Hb U. destruct T as [s|s| |s m e]; try contradiction; [split; reflexivity|].
  destruct U as [B V]. unfold SFleb. destruct s.
  - split; [reflexivity|].
    assert (C : SFcompare (S754_finite true b eb) (S754_finite true m e) =
                option_map CompOpp
                  (SFcompare (S754_finite false b eb) (S754_finite false m e))).
    { cbn [SFcompare option_map]. destruct (eb ?= e); reflexivity. }
    rewrite C, (SFcompare_scaled _ _ _ _ Hb B). cbn [option_map].
    destruct (Z.compare_spec (scaled (Z.pos b) eb) (scaled (Z.pos m) e)); [reflexivity | lia | reflexivity].
  - split; [|reflexivity].
    rewrite (SFcompare_scaled _ _ _ _ B Hb).
    destruct (Z.compare_spec (scaled (Z.pos m) e) (scaled (Z.pos b) eb)); [reflexivity | reflexivity | lia].
Qed.

Local Close Scope Z_scope.
Local Open Scope float_scope.

Lemma valid_score_under x :
  valid_score x = true -> under 4503599627370496 (-52) (Prim2SF x).
Proof.
  intros H. pose proof (valid_score_repr x H) as R.
  unfold valid_score in H. rewrite andb_true_iff, !leb_spec in H. destruct H as [_ H].
  change (Prim2SF 1) with (S754_finite false 4503599627370496 (-52)) in H.
  destruct R as [s|m e B]; [exact I|]. split; [exact B|].
  unfold SFleb in H. rewrite (SFcompare_scaled m e 4503599627370496 (-52) B eq_refl) in H.
  destruct (Z.compare_spec (scaled (Z.pos m) e) (scaled 4503599627370496 (-52)));
    [lia | lia | discriminate H].
Qed.

Lemma delta_range x y :
  valid_score x = true -> valid_score y = true ->
  (-100 <=? (x - y) * 100) && ((x - y) * 100 <=? 100) = true.
Proof.
  intros Hx Hy. rewrite !leb_spec, mul_spec, sub_spec, Prim2SF_100.
  change (Prim2SF (-100)) with (S754_finite true 7036874417766400 (-46)).
  destruct (under_SFleb 7036874417766400 (-46)
              (SF64mul (SF64sub (Prim2SF x) (Prim2SF y)) SF100) eq_refl) as [U L].
  { apply SF64mul_100_under, SF64sub_under;
      [reflexivity | apply valid_score_repr | apply valid_score_repr
      | apply valid_score_under | apply valid_score_under]; assumption. }
  unfold SF100 in *. rewrite U, L. reflexivity.
Qed.

Lemma deltas_within_hundred (a : ScoreSet) : forall b : ScoreSet,
  valid_scores a = true -> valid_scores b = true ->
  Forall (fun d => (-100 <=? d) && (d <=? 100) = true) (values (deltas a b)).
Proof.
  unfold valid_scores, deltas, values.
  induction a as [|[k x] a IH]; intros [|[k' y] b] Ha Hb; cbn [combine map snd];
    try constructor.
  - cbn [map snd forallb] in Ha, Hb. rewrite andb_true_iff in Ha, Hb.
    apply delta_range; tauto.
  - cbn [map snd forallb] in Ha, Hb. rewrite andb_true_iff in Ha, Hb.
    apply IH; tauto.
Qed.

(** X13.  For two score sets of valid scores with as many metrics each,
    every delta [compare] reports lies between -100 and 100, the bounds
    included: the two roundings, of the difference and of its product by
    100, never carry a delta out of the range of percentage points. *)
Theorem compare_deltas_within_hundred (a b : ScoreSet) :
  List.length a = List.length b ->
  valid_scores a = true ->
  valid_scores b = true ->
  exists r,
    compare a b = Ok r /\
    Forall (fun d => (-100 <=? d) && (d <=? 100) = true) (values r).
Proof.
  intros Hl Ha Hb. exists (deltas a b).
  split; [apply compare_same_length, Hl | apply deltas_within_hundred; assumption].
Qed.

(** The theorem on the original and instruct scores of the full test set. *)
Lemma compare_deltas_within_hundred_witness :
  exists r,
    compare FullTestSet.original_model_results FullTestSet.instruct_model_results = Ok r /\
    Forall (fun d => (-100 <=? d) && (d <=? 100) = true) (values r).
Proof.
  apply (compare_deltas_within_hundred FullTestSet.original_model_results
                                       FullTestSet.instruct_model_results);
    reflexivity.
Defined.

(** The bounds are reached: a score of 1 against a score of 0. *)
Example compare_extreme_deltas :
  compare [ ("rouge1"%string, 1) ] [ ("rouge1"%string, 0) ] = Ok [ ("rouge1"%string, 100) ] /\
  compare [ ("rouge1"%string, 0) ] [ ("rouge1"%string, 1) ] = Ok [ ("rouge1"%string, -100) ].
Proof. split; reflexivity. Qed.
